(** * mem-db: an in-memory table store with JSON snapshots

    A shallow embedding of the server of liubaotong/mem-db (packages
    [db], [protocol] and the dispatcher of [server/main.go]) and the
    properties of its natural-language specification.

    Layout: the Go values the program manipulates (module [go]),
    [encoding/json] and the file system as far as the server uses them
    (modules [json] and [os]), the table engine and catalog (module
    [db]), the wire protocol (module [protocol]), the dispatcher
    (module [server]), the table operations on rows as references
    (module [heap]), the vocabulary of the specification, then the
    lemmas and the claims. *)

From Stdlib Require Import ZArith Lia Bool.
From stdpp Require Import gmap strings list fin_maps pretty.

Set Warnings "-register-all,-clear-no-such-hyp".


(** ** Go values *)

Module go.

Local Open Scope Z_scope.

(** Go's [int] is 64 bits wide on the platforms the server targets. *)
Definition minInt : Z := - 2 ^ 63.
Definition maxInt : Z := 2 ^ 63 - 1.

(** A [float64]: a finite value [m * 2^e], an infinity or a NaN.  The
    type bounds neither mantissa nor exponent; [float64_valid] says when
    a finite value has a mantissa the 53 bits of the format can hold. *)
Inductive float64 : Type :=
| Finite (m e : Z)
| Inf (neg : bool)
| NaN.

Definition float64_valid (f : float64) : bool :=
  match f with
  | Finite m e => Z.abs m <=? 2 ^ 53
  | _ => true
  end.

(** [a == b] on floats: equality of the values; a NaN equals nothing. *)
Definition float_eqb (a b : float64) : bool :=
  match a, b with
  | Finite m1 e1, Finite m2 e2 =>
      let c := Z.min e1 e2 in
      m1 * 2 ^ (e1 - c) =? m2 * 2 ^ (e2 - c)
  | Inf s1, Inf s2 => Bool.eqb s1 s2
  | _, _ => false
  end.

(** The integer part of [m * 2^e], rounded toward zero. *)
Definition trunc (m e : Z) : Z :=
  if 0 <=? e then m * 2 ^ e else Z.quot m (2 ^ (- e)).

(** [int(v)]: truncation toward zero.  Where the result does not fit,
    the Go specification leaves it to the implementation; amd64 yields
    the smallest int, which is what is modelled. *)
Definition int_of_float64 (v : float64) : Z :=
  match v with
  | Finite m e =>
      let t := trunc m e in
      if (minInt <=? t) && (t <=? maxInt) then t else minInt
  | _ => minInt
  end.

(** The float nearest to [m * 2^e], ties to the even mantissa. *)
Definition round_float (m e : Z) : float64 :=
  let a := Z.abs m in
  if a <=? 2 ^ 53 then Finite m e
  else
    let k := Z.log2 a - 52 in
    let q := a / 2 ^ k in
    let r := a mod 2 ^ k in
    let half := 2 ^ (k - 1) in
    let q' := if r <? half then q
              else if half <? r then q + 1
              else if Z.even q then q else q + 1 in
    Finite (Z.sgn m * q') (e + k).

(** [float64(z)]. *)
Definition float64_of_int (z : Z) : float64 := round_float z 0.

(** Is [m * 2^e] a whole number? *)
Definition whole (m e : Z) : bool :=
  (0 <=? e) || (m mod 2 ^ (- e) =? 0).

(** A dynamic value held in an [interface{}]: what [encoding/json]
    decodes into one (nil, bool, float64, string, slice, map) and the
    [int] an in-process caller can pass.  A map is listed as its
    entries, in the order of the document it was read from. *)
Inductive Value : Type :=
| VNil
| VBool (b : bool)
| VInt (n : Z)
| VFloat (f : float64)
| VString (s : string)
| VSlice (xs : list Value)
| VMap (kvs : list (string * Value)).

(** [reflect.TypeOf(val)] as [%v] prints it. *)
Definition TypeOf (val : Value) : string :=
  match val with
  | VNil => "<nil>"
  | VBool _ => "bool"
  | VInt _ => "int"
  | VFloat _ => "float64"
  | VString _ => "string"
  | VSlice _ => "[]interface {}"
  | VMap _ => "map[string]interface {}"
  end.

(** [a == b] on interface values: equal dynamic types and equal
    values.  Two slices or two maps make the runtime panic ([None]). *)
Definition iface_eq (a b : Value) : option bool :=
  match a, b with
  | VNil, VNil => Some true
  | VBool x, VBool y => Some (Bool.eqb x y)
  | VInt x, VInt y => Some (x =? y)
  | VFloat x, VFloat y => Some (float_eqb x y)
  | VString x, VString y => Some (bool_decide (x = y))
  | VSlice _, VSlice _ => None
  | VMap _, VMap _ => None
  | _, _ => Some false
  end.

(** [m[k]] on a [map[string]interface{}]: nil when the key is absent. *)
Definition index (m : gmap string Value) (k : string) : Value :=
  default VNil (m !! k).

End go.

(** ** [encoding/json] and the file system, as far as the server uses them *)

Module json.

Import go.

(** A JSON document.  A number literal is given by a value [m * 2^e]
    that rounds to the same [float64] as the literal; for a literal
    without fraction and exponent it is the integer itself, [m * 2^0]. *)
Inductive doc : Type :=
| Null
| Bool (b : bool)
| Number (m e : Z)
| String (s : string)
| Array (items : list doc)
| Object (members : list (string * doc)).

(** [json.Unmarshal] into an [interface{}]. *)
Fixpoint decodeValue (j : doc) : Value :=
  match j with
  | Null => VNil
  | Bool b => VBool b
  | Number m e => VFloat (round_float m e)
  | String s => VString s
  | Array items => VSlice (map decodeValue items)
  | Object members => VMap (map (λ kv, (kv.1, decodeValue kv.2)) members)
  end.

(** [json.Marshal] of a value held in an [interface{}]: an [int] is
    written as a number, which reads back as a [float64]; an infinity
    or a NaN is an [UnsupportedValueError] ([None]).  Strings are taken
    to be valid UTF-8, as the decoder produces them. *)
Fixpoint encodeValue (v : Value) : option doc :=
  match v with
  | VNil => Some Null
  | VBool b => Some (Bool b)
  | VInt n => Some (Number n 0)
  | VFloat (Finite m e) => Some (Number m e)
  | VFloat _ => None
  | VString s => Some (String s)
  | VSlice xs =>
      Array <$>
        (fix go (l : list Value) : option (list doc) :=
           match l with
           | [] => Some []
           | x :: l' => x' ← encodeValue x; r ← go l'; Some (x' :: r)
           end) xs
  | VMap kvs =>
      Object <$>
        (fix go (l : list (string * Value)) : option (list (string * doc)) :=
           match l with
           | [] => Some []
           | kv :: l' => x' ← encodeValue kv.2; r ← go l'; Some ((kv.1, x') :: r)
           end) kvs
  end.

(** An object read into a Go map: the last of several members with one
    key stays. *)
Definition object_to_map {A} (members : list (string * A)) : gmap string A :=
  fold_left (λ m kv, <[kv.1 := kv.2]> m) members ∅.

(** A [map[string]interface{}] as a JSON object, and back ([null] reads
    as the nil map, which is not told apart from the empty one). *)
Definition encodeMap (m : gmap string Value) : option doc :=
  Object <$> mapM (λ kv, x' ← encodeValue kv.2; Some (kv.1, x')) (map_to_list m).

Definition decodeMap (j : doc) : option (gmap string Value) :=
  match j with
  | Null => Some ∅
  | Object members => Some (decodeValue <$> object_to_map members)
  | _ => None
  end.

(** The member of an object a struct field is read from: the last one
    with the field's name ([member]), [null] when there is none (a
    missing member and [null] both leave the field at its zero value).
    Names are compared exactly; [encoding/json] also accepts other
    capitalisations of a name. *)
Definition member (name : string) (members : list (string * doc)) : option doc :=
  object_to_map members !! name.

Definition field (name : string) (members : list (string * doc)) : doc :=
  default Null (member name members).

Definition decodeString (j : doc) : option string :=
  match j with
  | Null => Some ""
  | String s => Some s
  | _ => None
  end.

(** A number read into an [int]: it has to be a whole number that
    fits. *)
Definition decodeInt (j : doc) : option Z :=
  match j with
  | Null => Some 0%Z
  | Number m e =>
      let z := trunc m e in
      if whole m e && (minInt <=? z)%Z && (z <=? maxInt)%Z then Some z else None
  | _ => None
  end.

Definition decodeSlice {A} (elem : doc → option A) (j : doc) : option (list A) :=
  match j with
  | Null => Some []
  | Array items => mapM elem items
  | _ => None
  end.

End json.

Module os.

(** What a file holds: the text of a JSON document, or bytes that are
    no JSON text (an empty or truncated file among them). *)
Inductive content : Type :=
| Garbage
| Json (j : json.doc).

Inductive file : Type :=
| Unreadable
| Readable (c : content).

(** The files by path, and the paths at which no file can be created. *)
Record FS : Type := mkFS {
  files : gmap string file;
  denied : gset string
}.

(** [os.Open]: fails on a missing or unreadable file. *)
Definition Open (name : string) (fs : FS) : option content :=
  match files fs !! name with
  | Some (Readable c) => Some c
  | _ => None
  end.

Definition write (name : string) (c : content) (fs : FS) : FS :=
  mkFS (<[name := Readable c]> (files fs)) (denied fs).

(** [os.Create]: creates or truncates the file. *)
Definition Create (name : string) (fs : FS) : option FS :=
  if decide (name ∈ denied fs) then None else Some (write name Garbage fs).

(** [os.Stat] as the server uses it: does the path exist? *)
Definition Stat (name : string) (fs : FS) : bool :=
  bool_decide (is_Some (files fs !! name)).

(** [os.Rename]: moves the file over the new path. *)
Definition Rename (oldpath newpath : string) (fs : FS) : option FS :=
  match files fs !! oldpath with
  | Some f =>
      if decide (newpath ∈ denied fs) then None
      else Some (mkFS (<[newpath := f]> (delete oldpath (files fs))) (denied fs))
  | None => None
  end.

(** [os.Remove]. *)
Definition Remove (name : string) (fs : FS) : option FS :=
  match files fs !! name with
  | Some _ => Some (mkFS (delete name (files fs)) (denied fs))
  | None => None
  end.

End os.

(** ** Package [db]: the table engine and the catalog *)

Module db.

Import go.

Definition ColumnType : Type := Z.
Definition TypeInt : ColumnType := 0%Z.
Definition TypeString : ColumnType := 1%Z.

Record Column : Type := mkColumn {
  Column_Name : string;
  Column_Type : ColumnType
}.

(** A row is a [map[string]interface{}]. *)
Abbreviation Row := (gmap string Value).

Record Table : Type := mkTable {
  Table_Name : string;
  Columns : list Column;
  Rows : list Row
}.

Record TableData : Type := mkTableData {
  TableData_Name : string;
  TableData_Columns : list Column;
  TableData_Rows : list Row
}.

Record TableInfo : Type := mkTableInfo {
  TableInfo_Name : string;
  TableInfo_Columns : list (string * string)
}.

(** The catalog: [Database.tables]. *)
Abbreviation Database := (gmap string Table).

(** The errors of the package, one constructor per message. *)
Inductive error : Type :=
| ErrTableExists (name : string)
| ErrTableMissing (name : string)
| ErrMissingValue (col : string)
| ErrColumn (col : string) (cause : error)
| ErrGotFloat
| ErrExpectedInt (got : string)
| ErrExpectedString (got : string)
| ErrUnsupportedType (ty : ColumnType)
| ErrNoMatch
| ErrCreate (path : string)
| ErrOpen (path : string)
| ErrEncode
| ErrDecode.

(** [err.Error()]. *)
Fixpoint Error (e : error) : string :=
  match e with
  | ErrTableExists name => "table " +:+ name +:+ " already exists"
  | ErrTableMissing name => "table " +:+ name +:+ " does not exist"
  | ErrMissingValue col => "missing value for column " +:+ col
  | ErrColumn col cause => "column " +:+ col +:+ ": " +:+ Error cause
  | ErrGotFloat => "expected integer value, got float"
  | ErrExpectedInt got => "expected int, got " +:+ got
  | ErrExpectedString got => "expected string, got " +:+ got
  | ErrUnsupportedType ty => "unsupported column type: " +:+ pretty ty
  | ErrNoMatch => "no matching records found"
  | ErrCreate path => "open " +:+ path +:+ ": permission denied"
  | ErrOpen path => "open " +:+ path +:+ ": no such file or directory"
  | ErrEncode => "json: unsupported value"
  | ErrDecode => "json: cannot unmarshal"
  end.

Definition NewDatabase : Database := ∅.

Definition CreateTable (name : string) (columns : list Column) (tables : Database)
  : Database * option error :=
  match tables !! name with
  | Some _ => (tables, Some (ErrTableExists name))
  | None => (<[name := mkTable name columns []]> tables, None)
  end.

Definition GetTable (name : string) (tables : Database) : error + Table :=
  match tables !! name with
  | Some table => inr table
  | None => inl (ErrTableMissing name)
  end.

(** *** The table operations *)

Definition validateValueType (col : Column) (val : Value) : option error :=
  if (Column_Type col =? TypeInt)%Z then
    match val with
    | VInt _ => None
    | VFloat v =>
        if float_eqb v (float64_of_int (int_of_float64 v)) then None
        else Some ErrGotFloat
    | _ => Some (ErrExpectedInt (TypeOf val))
    end
  else if (Column_Type col =? TypeString)%Z then
    match val with
    | VString _ => None
    | _ => Some (ErrExpectedString (TypeOf val))
    end
  else Some (ErrUnsupportedType (Column_Type col)).

(** The loop of [Insert] over the columns, [row] being the map built so
    far. *)
Fixpoint Insert_loop (cols : list Column) (values : Row) (row : Row) : error + Row :=
  match cols with
  | [] => inr row
  | col :: rest =>
      match values !! Column_Name col with
      | None => inl (ErrMissingValue (Column_Name col))
      | Some val =>
          match validateValueType col val with
          | Some err => inl (ErrColumn (Column_Name col) err)
          | None => Insert_loop rest values (<[Column_Name col := val]> row)
          end
      end
  end.

Definition Insert (values : Row) (t : Table) : Table * option error :=
  match Insert_loop (Columns t) values ∅ with
  | inl err => (t, Some err)
  | inr row => (mkTable (Table_Name t) (Columns t) (Rows t ++ [row]), None)
  end.

(** A condition is a Go function, which may be nil and, when called,
    may panic ([None]). *)
Abbreviation Condition := (option (Row → option bool)).

(** [condition == nil || condition(row)]. *)
Definition holds (condition : Condition) (row : Row) : option bool :=
  match condition with
  | None => Some true
  | Some f => f row
  end.

(** [condition == nil || !condition(row)]. *)
Definition holds_not (condition : Condition) (row : Row) : option bool :=
  match condition with
  | None => Some true
  | Some f => negb <$> f row
  end.

(** [for k, v := range src { dst[k] = v }]. *)
Definition assign (src dst : Row) : Row :=
  map_fold (λ k v acc, <[k := v]> acc) dst src.

Fixpoint Select_loop (condition : Condition) (rows : list Row) (result : list Row)
  : option (list Row) :=
  match rows with
  | [] => Some result
  | row :: rest =>
      hit ← holds condition row;
      Select_loop condition rest
        (if hit : bool then result ++ [assign row ∅] else result)
  end.

Definition Select (condition : Condition) (t : Table) : option (list Row) :=
  Select_loop condition (Rows t) [].

(** The first loop of [Update]: the values given for declared columns. *)
Fixpoint Update_validate (cols : list Column) (values : Row) : option error :=
  match cols with
  | [] => None
  | col :: rest =>
      match values !! Column_Name col with
      | Some val =>
          match validateValueType col val with
          | Some err => Some (ErrColumn (Column_Name col) err)
          | None => Update_validate rest values
          end
      | None => Update_validate rest values
      end
  end.

(** The second loop: the rows after it, and [updated]. *)
Fixpoint Update_loop (condition : Condition) (values : Row) (rows : list Row)
    (updated : bool) : option (list Row * bool) :=
  match rows with
  | [] => Some ([], updated)
  | row :: rest =>
      hit ← holds condition row;
      r ← Update_loop condition values rest (if hit : bool then true else updated);
      Some ((if hit : bool then assign values row else row) :: r.1, r.2)
  end.

(** The table after the call and the error returned; [None] when the
    condition panics. *)
Definition Update (condition : Condition) (values : Row) (t : Table)
  : option (Table * option error) :=
  match Update_validate (Columns t) values with
  | Some err => Some (t, Some err)
  | None =>
      r ← Update_loop condition values (Rows t) false;
      let t' := mkTable (Table_Name t) (Columns t) r.1 in
      if r.2 : bool then Some (t', None) else Some (t', Some ErrNoMatch)
  end.

Fixpoint Delete_loop (condition : Condition) (rows : list Row) (newRows : list Row)
  : option (list Row) :=
  match rows with
  | [] => Some newRows
  | row :: rest =>
      keep ← holds_not condition row;
      Delete_loop condition rest (if keep : bool then newRows ++ [row] else newRows)
  end.

(** The table after the call, the count and the error returned. *)
Definition Delete (condition : Condition) (t : Table)
  : option (Table * (Z * option error)) :=
  let originalLen := Z.of_nat (length (Rows t)) in
  newRows ← Delete_loop condition (Rows t) [];
  let deletedCount := (originalLen - Z.of_nat (length newRows))%Z in
  if (deletedCount =? 0)%Z then Some (t, (0%Z, Some ErrNoMatch))
  else Some (mkTable (Table_Name t) (Columns t) newRows, (deletedCount, None)).

Definition GetColumns (t : Table) : list Column := Columns t.

Definition RowCount (t : Table) : Z := Z.of_nat (length (Rows t)).

Definition GetTableInfo (name : string) (tables : Database) : error + TableInfo :=
  match tables !! name with
  | None => inl (ErrTableMissing name)
  | Some table =>
      inr (mkTableInfo (Table_Name table)
             (map (λ col, (Column_Name col,
                           if (Column_Type col =? TypeInt)%Z then "int" else "string"))
                  (Columns table)))
  end.

(** *** Snapshots *)

(** The JSON form of [TableData], by its struct tags. *)
Definition encodeColumn (col : Column) : json.doc :=
  json.Object [("name", json.String (Column_Name col));
               ("type", json.Number (Column_Type col) 0)].

Definition decodeColumn (j : json.doc) : option Column :=
  match j with
  | json.Null => Some (mkColumn "" 0%Z)
  | json.Object members =>
      name ← json.decodeString (json.field "name" members);
      ty ← json.decodeInt (json.field "type" members);
      Some (mkColumn name ty)
  | _ => None
  end.

Definition encodeTableData (td : TableData) : option json.doc :=
  rows ← mapM json.encodeMap (TableData_Rows td);
  Some (json.Object [("name", json.String (TableData_Name td));
                     ("columns", json.Array (map encodeColumn (TableData_Columns td)));
                     ("rows", json.Array rows)]).

Definition decodeTableData (j : json.doc) : option TableData :=
  match j with
  | json.Null => Some (mkTableData "" [] [])
  | json.Object members =>
      name ← json.decodeString (json.field "name" members);
      columns ← json.decodeSlice decodeColumn (json.field "columns" members);
      rows ← json.decodeSlice json.decodeMap (json.field "rows" members);
      Some (mkTableData name columns rows)
  | _ => None
  end.

(** [encoder.Encode(data)] and [decoder.Decode(&data)] for a
    [map[string]TableData]. *)
Definition Encode (data : gmap string TableData) : option json.doc :=
  json.Object <$>
    mapM (λ kv, d ← encodeTableData kv.2; Some (kv.1, d)) (map_to_list data).

Definition Decode (j : json.doc) : option (gmap string TableData) :=
  match j with
  | json.Null => Some ∅
  | json.Object members =>
      json.object_to_map <$>
        mapM (λ kv, td ← decodeTableData kv.2; Some (kv.1, td)) members
  | _ => None
  end.

Definition SaveToDisk (filename : string) (tables : Database) (fs : os.FS)
  : os.FS * option error :=
  match os.Create filename fs with
  | None => (fs, Some (ErrCreate filename))
  | Some fs1 =>
      let data :=
        (λ table, mkTableData (Table_Name table) (Columns table) (Rows table))
          <$> tables in
      match Encode data with
      | None => (fs1, Some ErrEncode)
      | Some j => (os.write filename (os.Json j) fs1, None)
      end
  end.

(** The loop of [LoadFromDisk]: every table is filed under its own
    name.  (Go ranges over [data] in no fixed order; the order only
    matters when two entries carry one name.) *)
Definition LoadFromDisk_tables (data : gmap string TableData) : Database :=
  map_fold
    (λ _ tableData tables,
       <[TableData_Name tableData :=
           mkTable (TableData_Name tableData) (TableData_Columns tableData)
                   (TableData_Rows tableData)]> tables)
    ∅ data.

Definition LoadFromDisk (filename : string) (fs : os.FS) (tables : Database)
  : Database * option error :=
  match os.Open filename fs with
  | None => (tables, Some (ErrOpen filename))
  | Some c =>
      match c with
      | os.Garbage => (tables, Some ErrDecode)
      | os.Json j =>
          match Decode j with
          | None => (tables, Some ErrDecode)
          | Some data => (LoadFromDisk_tables data, None)
          end
      end
  end.

End db.

(** ** Package [protocol]: commands and responses *)

Module protocol.

Import go.

Definition CommandType : Type := Z.
Definition CreateTable : CommandType := 0%Z.
Definition Insert : CommandType := 1%Z.
Definition Select : CommandType := 2%Z.
Definition Update : CommandType := 3%Z.
Definition Delete : CommandType := 4%Z.
Definition SaveToDisk : CommandType := 5%Z.
Definition LoadFromDisk : CommandType := 6%Z.
Definition GetTableInfo : CommandType := 7%Z.

Record CreateTablePayload : Type := mkCreateTablePayload {
  CreateTable_TableName : string;
  CreateTable_Columns : list (string * string)
}.

Record InsertPayload : Type := mkInsertPayload {
  Insert_TableName : string;
  Insert_Values : gmap string Value
}.

Record SelectPayload : Type := mkSelectPayload {
  Select_TableName : string;
  Select_Conditions : gmap string Value
}.

Record UpdatePayload : Type := mkUpdatePayload {
  Update_TableName : string;
  Update_Values : gmap string Value;
  Update_Conditions : gmap string Value
}.

Record DeletePayload : Type := mkDeletePayload {
  Delete_TableName : string;
  Delete_Conditions : gmap string Value
}.

Record GetTableInfoPayload : Type := mkGetTableInfoPayload {
  GetTableInfo_TableName : string
}.

(** What the [interface{}] of [Command.Payload] holds: nil, one of the
    payload structs, or, from an in-process caller, a string. *)
Inductive payload : Type :=
| PNil
| PString (s : string)
| PCreateTable (p : CreateTablePayload)
| PInsert (p : InsertPayload)
| PSelect (p : SelectPayload)
| PUpdate (p : UpdatePayload)
| PDelete (p : DeletePayload)
| PGetTableInfo (p : GetTableInfoPayload).

Record Command : Type := mkCommand {
  Type_ : CommandType;
  Payload : payload
}.

(** What [Response.Data] holds. *)
Inductive data : Type :=
| DRows (rows : list (gmap string Value))
| DText (s : string)
| DTableInfo (info : db.TableInfo).

Record Response : Type := mkResponse {
  Success : bool;
  Data : option data;
  Error : string
}.

(** [json.Unmarshal] into the payload structs: [null] leaves the zero
    value, anything but an object is an error. *)
Definition decodeColumnSpec (j : json.doc) : option (string * string) :=
  match j with
  | json.Null => Some ("", "")
  | json.Object members =>
      name ← json.decodeString (json.field "name" members);
      ty ← json.decodeString (json.field "type" members);
      Some (name, ty)
  | _ => None
  end.

Definition decodeCreateTablePayload (j : json.doc) : option CreateTablePayload :=
  match j with
  | json.Null => Some (mkCreateTablePayload "" [])
  | json.Object members =>
      name ← json.decodeString (json.field "table_name" members);
      columns ← json.decodeSlice decodeColumnSpec (json.field "columns" members);
      Some (mkCreateTablePayload name columns)
  | _ => None
  end.

Definition decodeInsertPayload (j : json.doc) : option InsertPayload :=
  match j with
  | json.Null => Some (mkInsertPayload "" ∅)
  | json.Object members =>
      name ← json.decodeString (json.field "table_name" members);
      values ← json.decodeMap (json.field "values" members);
      Some (mkInsertPayload name values)
  | _ => None
  end.

Definition decodeSelectPayload (j : json.doc) : option SelectPayload :=
  match j with
  | json.Null => Some (mkSelectPayload "" ∅)
  | json.Object members =>
      name ← json.decodeString (json.field "table_name" members);
      conditions ← json.decodeMap (json.field "conditions" members);
      Some (mkSelectPayload name conditions)
  | _ => None
  end.

Definition decodeUpdatePayload (j : json.doc) : option UpdatePayload :=
  match j with
  | json.Null => Some (mkUpdatePayload "" ∅ ∅)
  | json.Object members =>
      name ← json.decodeString (json.field "table_name" members);
      values ← json.decodeMap (json.field "values" members);
      conditions ← json.decodeMap (json.field "conditions" members);
      Some (mkUpdatePayload name values conditions)
  | _ => None
  end.

Definition decodeDeletePayload (j : json.doc) : option DeletePayload :=
  match j with
  | json.Null => Some (mkDeletePayload "" ∅)
  | json.Object members =>
      name ← json.decodeString (json.field "table_name" members);
      conditions ← json.decodeMap (json.field "conditions" members);
      Some (mkDeletePayload name conditions)
  | _ => None
  end.

Definition decodeGetTableInfoPayload (j : json.doc) : option GetTableInfoPayload :=
  match j with
  | json.Null => Some (mkGetTableInfoPayload "")
  | json.Object members =>
      name ← json.decodeString (json.field "table_name" members);
      Some (mkGetTableInfoPayload name)
  | _ => None
  end.

(** The first step of [UnmarshalJSON]: the type tag and the raw
    payload, which is empty when the member is missing. *)
Definition decodeRaw (j : json.doc) : option (CommandType * option json.doc) :=
  match j with
  | json.Null => Some (0%Z, None)
  | json.Object members =>
      ty ← json.decodeInt (json.field "type" members);
      Some (ty, json.member "payload" members)
  | _ => None
  end.

(** [Command.UnmarshalJSON] on a zero [Command]; [None] is an error.
    An empty raw payload is no JSON text, so decoding it fails. *)
Definition UnmarshalJSON (j : json.doc) : option Command :=
  raw ← decodeRaw j;
  let ty := raw.1 in
  if (ty =? CreateTable)%Z then
    p ← raw.2 ≫= decodeCreateTablePayload; Some (mkCommand ty (PCreateTable p))
  else if (ty =? Insert)%Z then
    p ← raw.2 ≫= decodeInsertPayload; Some (mkCommand ty (PInsert p))
  else if (ty =? Select)%Z then
    p ← raw.2 ≫= decodeSelectPayload; Some (mkCommand ty (PSelect p))
  else if (ty =? Update)%Z then
    p ← raw.2 ≫= decodeUpdatePayload; Some (mkCommand ty (PUpdate p))
  else if (ty =? Delete)%Z then
    p ← raw.2 ≫= decodeDeletePayload; Some (mkCommand ty (PDelete p))
  else if (ty =? GetTableInfo)%Z then
    p ← raw.2 ≫= decodeGetTableInfoPayload; Some (mkCommand ty (PGetTableInfo p))
  else Some (mkCommand ty PNil).

End protocol.

(** ** The dispatcher of [server/main.go] *)

Module server.

Import go.
Import protocol.

Definition DEFAULT_DB_FILE : string := "database.json".

(** What a handler acts on: the catalog and the file system. *)
Record World : Type := mkWorld {
  database : gmap string db.Table;
  disk : os.FS
}.

Definition fail (msg : string) : Response := mkResponse false None msg.

(** A handler's result; [None] is a panic. *)
Abbreviation Result := (option (Response * World)).

Definition autoSave (w : World) : World :=
  mkWorld (database w) (db.SaveToDisk DEFAULT_DB_FILE (database w) (disk w)).1.

(** The closure the handlers of Select, Update and Delete build from
    the [conditions] of a payload.  (Go ranges over the map in no fixed
    order, which shows only when a comparison panics.) *)
Fixpoint matches (conditions : list (string * Value)) (row : gmap string Value)
  : option bool :=
  match conditions with
  | [] => Some true
  | kv :: rest =>
      same ← iface_eq (index row kv.1) kv.2;
      if same : bool then matches rest row else Some false
  end.

Definition condition (conditions : gmap string Value)
  : gmap string Value → option bool :=
  matches (map_to_list conditions).

(** The loop of [handleCreateTable] over the declared columns: the
    columns, or the type name that is neither ["int"] nor ["string"]. *)
Fixpoint convertColumns (cols : list (string * string)) : string + list db.Column :=
  match cols with
  | [] => inr []
  | col :: rest =>
      if bool_decide (col.2 = "int") then
        match convertColumns rest with
        | inr cs => inr (db.mkColumn col.1 db.TypeInt :: cs)
        | inl bad => inl bad
        end
      else if bool_decide (col.2 = "string") then
        match convertColumns rest with
        | inr cs => inr (db.mkColumn col.1 db.TypeString :: cs)
        | inl bad => inl bad
        end
      else inl col.2
  end.

Definition handleCreateTable (p : payload) (w : World) : Result :=
  match p with
  | PCreateTable createPayload =>
      match convertColumns (CreateTable_Columns createPayload) with
      | inl bad => Some (fail ("invalid column type: " +:+ bad), w)
      | inr columns =>
          match db.CreateTable (CreateTable_TableName createPayload) columns (database w) with
          | (_, Some err) => Some (fail (db.Error err), w)
          | (tables, None) =>
              Some (mkResponse true None "", autoSave (mkWorld tables (disk w)))
          end
      end
  | _ => Some (fail "invalid payload", w)
  end.

Definition handleInsert (p : payload) (w : World) : Result :=
  match p with
  | PInsert insertPayload =>
      match db.GetTable (Insert_TableName insertPayload) (database w) with
      | inl err => Some (fail (db.Error err), w)
      | inr table =>
          match db.Insert (Insert_Values insertPayload) table with
          | (table', Some err) =>
              Some (fail (db.Error err),
                    mkWorld (<[Insert_TableName insertPayload := table']> (database w)) (disk w))
          | (table', None) =>
              Some (mkResponse true None "",
                    autoSave (mkWorld (<[Insert_TableName insertPayload := table']> (database w))
                                      (disk w)))
          end
      end
  | _ => Some (fail "invalid payload", w)
  end.

Definition handleSelect (p : payload) (w : World) : Result :=
  match p with
  | PSelect selectPayload =>
      match db.GetTable (Select_TableName selectPayload) (database w) with
      | inl err => Some (fail (db.Error err), w)
      | inr table =>
          result ← db.Select (Some (condition (Select_Conditions selectPayload))) table;
          Some (mkResponse true (Some (DRows result)) "", w)
      end
  | _ => Some (fail "invalid payload", w)
  end.

Definition handleUpdate (p : payload) (w : World) : Result :=
  match p with
  | PUpdate updatePayload =>
      match db.GetTable (Update_TableName updatePayload) (database w) with
      | inl err => Some (fail (db.Error err), w)
      | inr table =>
          r ← db.Update (Some (condition (Update_Conditions updatePayload)))
                        (Update_Values updatePayload) table;
          let w' := mkWorld (<[Update_TableName updatePayload := r.1]> (database w)) (disk w) in
          match r.2 with
          | Some err => Some (fail (db.Error err), w')
          | None => Some (mkResponse true None "", autoSave w')
          end
      end
  | _ => Some (fail "invalid payload", w)
  end.

Definition handleDelete (p : payload) (w : World) : Result :=
  match p with
  | PDelete deletePayload =>
      match db.GetTable (Delete_TableName deletePayload) (database w) with
      | inl err => Some (fail (db.Error err), w)
      | inr table =>
          r ← db.Delete (Some (condition (Delete_Conditions deletePayload))) table;
          let w' := mkWorld (<[Delete_TableName deletePayload := r.1]> (database w)) (disk w) in
          match r.2.2 with
          | Some err => Some (fail (db.Error err), w')
          | None =>
              Some (mkResponse true
                      (Some (DText ("Deleted " +:+ pretty r.2.1 +:+ " records"))) "",
                    autoSave w')
          end
      end
  | _ => Some (fail "invalid payload", w)
  end.

Definition handleSaveToDisk (w : World) : Result :=
  let backupFile := DEFAULT_DB_FILE +:+ ".bak" in
  let fs1 :=
    if os.Stat DEFAULT_DB_FILE (disk w)
    then default (disk w) (os.Rename DEFAULT_DB_FILE backupFile (disk w))
    else disk w in
  match db.SaveToDisk DEFAULT_DB_FILE (database w) fs1 with
  | (fs2, Some err) =>
      let fs3 :=
        if os.Stat backupFile fs2
        then default fs2 (os.Rename backupFile DEFAULT_DB_FILE fs2)
        else fs2 in
      Some (fail (db.Error err), mkWorld (database w) fs3)
  | (fs2, None) =>
      Some (mkResponse true None "",
            mkWorld (database w) (default fs2 (os.Remove backupFile fs2)))
  end.

Definition handleLoadFromDisk (p : payload) (w : World) : Result :=
  match
    match p with
    | PNil => inr DEFAULT_DB_FILE
    | PString filename => inr filename
    | _ => inl (fail "invalid filename")
    end
  with
  | inl resp => Some (resp, w)
  | inr filename =>
      match db.LoadFromDisk filename (disk w) (database w) with
      | (tables, Some err) =>
          Some (fail ("failed to load database: " +:+ db.Error err),
                mkWorld tables (disk w))
      | (tables, None) => Some (mkResponse true None "", mkWorld tables (disk w))
      end
  end.

Definition handleGetTableInfo (p : payload) (w : World) : Result :=
  match p with
  | PGetTableInfo tableInfoPayload =>
      match db.GetTableInfo (GetTableInfo_TableName tableInfoPayload) (database w) with
      | inl err => Some (fail (db.Error err), w)
      | inr tableInfo => Some (mkResponse true (Some (DTableInfo tableInfo)) "", w)
      end
  | _ => Some (fail "invalid payload", w)
  end.

Definition handleCommand (cmd : Command) (w : World) : Result :=
  let ty := Type_ cmd in
  if (ty =? CreateTable)%Z then handleCreateTable (Payload cmd) w
  else if (ty =? Insert)%Z then handleInsert (Payload cmd) w
  else if (ty =? Select)%Z then handleSelect (Payload cmd) w
  else if (ty =? Update)%Z then handleUpdate (Payload cmd) w
  else if (ty =? Delete)%Z then handleDelete (Payload cmd) w
  else if (ty =? SaveToDisk)%Z then handleSaveToDisk w
  else if (ty =? LoadFromDisk)%Z then handleLoadFromDisk (Payload cmd) w
  else if (ty =? GetTableInfo)%Z then handleGetTableInfo (Payload cmd) w
  else Some (fail "unknown command", w).

(** One turn of [handleConnection]: a request is decoded into a fresh
    [Command] and dispatched; a request that does not decode ends the
    connection without a response and leaves the world as it is. *)
Definition serve (request : json.doc) (w : World) : option (option Response * World) :=
  match UnmarshalJSON request with
  | Some cmd => r ← handleCommand cmd w; Some (Some r.1, r.2)
  | None => Some (None, w)
  end.

End server.

(** ** Rows as references

    A Go map is a reference.  The operations of [db] above are given on
    the contents of the rows; here they are given once more on a store
    of map objects, where the identity of a row shows: [Insert] makes a
    map, [Update] writes into the maps of the table, [Delete] drops
    references and [Select] makes copies. *)

Module heap.

Import go.

Abbreviation loc := positive.

(** The map objects by address. *)
Abbreviation Store := (gmap positive (gmap string Value)).

Record Table : Type := mkTable {
  Table_Name : string;
  Columns : list db.Column;
  Rows : list loc
}.

(** The map at an address (a row of a table is always allocated). *)
Definition deref (σ : Store) (l : loc) : gmap string Value :=
  default ∅ (σ !! l).

(** [make(map[string]interface{})]. *)
Definition make (σ : Store) : loc * Store :=
  let l := fresh (dom σ) in (l, <[l := ∅]> σ).

(** [m[k] = v] and [delete(m, k)] on the map at [l]. *)
Definition store_key (l : loc) (k : string) (v : Value) (σ : Store) : Store :=
  <[l := <[k := v]> (deref σ l)]> σ.

Definition delete_key (l : loc) (k : string) (σ : Store) : Store :=
  <[l := delete k (deref σ l)]> σ.

(** [for k, v := range row { rowCopy[k] = v }]. *)
Definition copy_into (row : gmap string Value) (rowCopy : loc) (σ : Store) : Store :=
  map_fold (λ k v acc, store_key rowCopy k v acc) σ row.

Fixpoint Select_loop (condition : db.Condition) (rows : list loc) (result : list loc)
    (σ : Store) : option (list loc * Store) :=
  match rows with
  | [] => Some (result, σ)
  | row :: rest =>
      hit ← db.holds condition (deref σ row);
      if hit : bool then
        let a := make σ in
        Select_loop condition rest (result ++ [a.1])
          (copy_into (deref a.2 row) a.1 a.2)
      else Select_loop condition rest result σ
  end.

Definition Select (condition : db.Condition) (t : Table) (σ : Store)
  : option (list loc * Store) :=
  Select_loop condition (Rows t) [] σ.

Fixpoint Insert_loop (cols : list db.Column) (values : gmap string Value)
    (row : loc) (σ : Store) : db.error + Store :=
  match cols with
  | [] => inr σ
  | col :: rest =>
      match values !! db.Column_Name col with
      | None => inl (db.ErrMissingValue (db.Column_Name col))
      | Some val =>
          match db.validateValueType col val with
          | Some err => inl (db.ErrColumn (db.Column_Name col) err)
          | None =>
              Insert_loop rest values row (store_key row (db.Column_Name col) val σ)
          end
      end
  end.

Definition Insert (values : gmap string Value) (t : Table) (σ : Store)
  : Table * Store * option db.error :=
  let a := make σ in
  match Insert_loop (Columns t) values a.1 a.2 with
  | inl err => (t, a.2, Some err)
  | inr σ' => (mkTable (Table_Name t) (Columns t) (Rows t ++ [a.1]), σ', None)
  end.

Fixpoint Update_loop (condition : db.Condition) (values : gmap string Value)
    (rows : list loc) (updated : bool) (σ : Store) : option (Store * bool) :=
  match rows with
  | [] => Some (σ, updated)
  | row :: rest =>
      hit ← db.holds condition (deref σ row);
      Update_loop condition values rest (if hit : bool then true else updated)
        (if hit : bool then copy_into values row σ else σ)
  end.

Definition Update (condition : db.Condition) (values : gmap string Value)
    (t : Table) (σ : Store) : option (Store * option db.error) :=
  match db.Update_validate (Columns t) values with
  | Some err => Some (σ, Some err)
  | None =>
      r ← Update_loop condition values (Rows t) false σ;
      if r.2 : bool then Some (r.1, None) else Some (r.1, Some db.ErrNoMatch)
  end.

Fixpoint Delete_loop (condition : db.Condition) (rows : list loc) (newRows : list loc)
    (σ : Store) : option (list loc) :=
  match rows with
  | [] => Some newRows
  | row :: rest =>
      keep ← db.holds_not condition (deref σ row);
      Delete_loop condition rest (if keep : bool then newRows ++ [row] else newRows) σ
  end.

Definition Delete (condition : db.Condition) (t : Table) (σ : Store)
  : option (Table * (Z * option db.error)) :=
  let originalLen := Z.of_nat (length (Rows t)) in
  newRows ← Delete_loop condition (Rows t) [] σ;
  let deletedCount := (originalLen - Z.of_nat (length newRows))%Z in
  if (deletedCount =? 0)%Z then Some (t, (0%Z, Some db.ErrNoMatch))
  else Some (mkTable (Table_Name t) (Columns t) newRows, (deletedCount, None)).

(** The rows of a table by their contents. *)
Definition contents (σ : Store) (rows : list loc) : list (gmap string Value) :=
  map (deref σ) rows.

Definition view (σ : Store) (t : Table) : db.Table :=
  db.mkTable (Table_Name t) (Columns t) (contents σ (Rows t)).

(** A table whose rows are allocated and pairwise distinct maps. *)
Definition wf (σ : Store) (t : Table) : Prop :=
  NoDup (Rows t) ∧ Forall (λ l, l ∈ dom σ) (Rows t).

End heap.

(** ** The vocabulary of the specification *)

Import go.

(** The two kinds of value of the data model, and the kind a Go value
    has: an [int], a whole [float64] that fits an [int], or a string. *)
Inductive Kind : Type :=
| Integer
| Text.

Definition kind_of_type (ty : db.ColumnType) : option Kind :=
  if (ty =? db.TypeInt)%Z then Some Integer
  else if (ty =? db.TypeString)%Z then Some Text
  else None.

Definition fits_int (m e : Z) : bool :=
  (minInt <=? trunc m e)%Z && (trunc m e <=? maxInt)%Z.

Definition kind_of (v : Value) : option Kind :=
  match v with
  | VInt _ => Some Integer
  | VFloat (Finite m e) => if whole m e && fits_int m e then Some Integer else None
  | VString _ => Some Text
  | _ => None
  end.

(** The value's kind is the column's declared type. *)
Definition kind_matches (col : db.Column) (v : Value) : bool :=
  match kind_of v, kind_of_type (db.Column_Type col) with
  | Some Integer, Some Integer => true
  | Some Text, Some Text => true
  | _, _ => false
  end.

(** A value whose float, if it is one, is a [float64]. *)
Definition value_valid (v : Value) : bool :=
  match v with
  | VFloat f => float64_valid f
  | _ => true
  end.

Definition column_names (cols : list db.Column) : gset string :=
  list_to_set (map db.Column_Name cols).

(** The invariant of the data model: a row has exactly the declared
    columns as keys, each with a value of the declared kind. *)
Definition row_ok (cols : list db.Column) (row : gmap string Value) : Prop :=
  dom row = column_names cols ∧
  ∀ col, col ∈ cols →
    ∃ v, row !! db.Column_Name col = Some v ∧ kind_matches col v = true.

Definition table_inv (t : db.Table) : Prop :=
  Forall (row_ok (db.Columns t)) (db.Rows t).

(** A row matches a condition when, for every key of the condition, the
    row's value at the key equals the condition's. *)
Definition row_matches (conditions row : gmap string Value) : Prop :=
  map_Forall (λ k v, iface_eq (index row k) v = Some true) conditions.

(** The values [==] compares without a panic. *)
Definition comparable (v : Value) : bool :=
  match v with
  | VSlice _ | VMap _ => false
  | _ => true
  end.

(** The error kinds of the specification among the errors of [db]. *)
Definition is_MissingColumn (err : option db.error) : Prop :=
  match err with
  | Some (db.ErrMissingValue _) => True
  | _ => False
  end.

Definition is_TypeMismatch (err : option db.error) : Prop :=
  match err with
  | Some (db.ErrColumn _ _) => True
  | _ => False
  end.

(** What is wrong with the value given for a column, and the first
    declared column with something wrong. *)
Inductive defect : Type :=
| Missing
| Mismatch.

Definition defect_of (values : gmap string Value) (col : db.Column) : option defect :=
  match values !! db.Column_Name col with
  | None => Some Missing
  | Some v => if kind_matches col v then None else Some Mismatch
  end.

Fixpoint first_defect (cols : list db.Column) (values : gmap string Value)
  : option (db.Column * defect) :=
  match cols with
  | [] => None
  | col :: rest =>
      match defect_of values col with
      | Some d => Some (col, d)
      | None => first_defect rest values
      end
  end.

(** The table states the operations build: from [CreateTable] or
    [LoadFromDisk], by [Insert], [Update] and [Delete]. *)
Inductive built : db.Table → Prop :=
| built_create name columns tables tables' t :
    db.CreateTable name columns tables = (tables', None) →
    tables' !! name = Some t →
    built t
| built_load filename fs tables tables' name t :
    db.LoadFromDisk filename fs tables = (tables', None) →
    tables' !! name = Some t →
    built t
| built_insert values t :
    built t → built (db.Insert values t).1
| built_update condition values t r :
    built t → db.Update condition values t = Some r → built r.1
| built_delete condition t r :
    built t → db.Delete condition t = Some r → built r.1.

(** The same, with the snapshot's rows already in order and [Update]
    given values for declared columns only. *)
Inductive built_checked : db.Table → Prop :=
| checked_create name columns tables tables' t :
    db.CreateTable name columns tables = (tables', None) →
    tables' !! name = Some t →
    built_checked t
| checked_load filename fs tables tables' name t :
    db.LoadFromDisk filename fs tables = (tables', None) →
    tables' !! name = Some t →
    table_inv t →
    built_checked t
| checked_insert values t :
    built_checked t → built_checked (db.Insert values t).1
| checked_update condition values t r :
    built_checked t →
    dom values ⊆ column_names (db.Columns t) →
    db.Update condition values t = Some r →
    built_checked r.1
| checked_delete condition t r :
    built_checked t → db.Delete condition t = Some r → built_checked r.1.

(** The values [encoding/json] writes and reads back unchanged: no Go
    [int], and floats that are finite [float64]s. *)
Fixpoint json_value (v : Value) : bool :=
  match v with
  | VNil | VBool _ | VString _ => true
  | VInt _ => false
  | VFloat (Finite m e) => float64_valid (Finite m e)
  | VFloat _ => false
  | VSlice xs => forallb json_value xs
  | VMap kvs => forallb (λ kv, json_value kv.2) kvs
  end.

(** A catalog as the server holds it: every table filed under its own
    name, column types that are Go [int]s, JSON values in the rows. *)
Definition table_wire (t : db.Table) : Prop :=
  Forall (λ col, (minInt ≤ db.Column_Type col ≤ maxInt)%Z) (db.Columns t) ∧
  Forall (map_Forall (λ _ v, json_value v = true)) (db.Rows t).

Definition catalog_wire (tables : gmap string db.Table) : Prop :=
  map_Forall (λ name t, db.Table_Name t = name ∧ table_wire t) tables.

(** What a condition given as a payload selects: an absent one (the
    nil function) every row, a mapping the rows that match it. *)
Definition selects (conditions : option (gmap string Value)) (row : gmap string Value)
  : Prop :=
  match conditions with
  | None => True
  | Some c => row_matches c row
  end.

#[global] Instance row_matches_dec conditions row : Decision (row_matches conditions row).
Proof. unfold row_matches. apply _. Defined.

#[global] Instance selects_dec conditions row : Decision (selects conditions row).
Proof. destruct conditions; simpl; apply _. Defined.

(** The snapshot entry of a table, as [SaveToDisk] builds it. *)
Definition to_data (t : db.Table) : db.TableData :=
  db.mkTableData (db.Table_Name t) (db.Columns t) (db.Rows t).

(** ** The scenarios of the specification, as data *)

Definition users_columns : list db.Column :=
  [db.mkColumn "id" db.TypeInt; db.mkColumn "name" db.TypeString].

Definition one : Value := VFloat (Finite 1 0).
Definition two : Value := VFloat (Finite 2 0).

Definition alice : gmap string Value :=
  {["id" := one; "name" := VString "Alice"]}.

Definition no_users : db.Table := db.mkTable "users" users_columns [].
Definition users : db.Table := db.mkTable "users" users_columns [alice].

Definition by_id (v : Value) : gmap string Value := {["id" := v]}.

Definition rename_bob : gmap string Value := {["name" := VString "Bob"]}.

(** An update with one valid field and one for a column that does not
    exist. *)
Definition rename_bogus : gmap string Value :=
  {["name" := VString "Bob"; "bogus" := one]}.

(** An insert with a text for [id] and nothing for [name]. *)
Definition text_id : gmap string Value := {["id" := VString "x"]}.

Definition empty_disk : os.FS := os.mkFS ∅ ∅.

Definition world (t : db.Table) : server.World :=
  server.mkWorld {["users" := t]} empty_disk.

(** A snapshot whose only row lacks the declared column. *)
Definition bare_columns : list db.Column := [db.mkColumn "id" db.TypeInt].

Definition bare_snapshot : json.doc :=
  json.Object
    [("users",
      json.Object
        [("name", json.String "users");
         ("columns",
          json.Array [json.Object [("name", json.String "id");
                                   ("type", json.Number 0 0)]]);
         ("rows", json.Array [json.Object []])])].

Definition bare_disk : os.FS :=
  os.mkFS {["database.json" := os.Readable (os.Json bare_snapshot)]} ∅.

Definition bare_users : db.Table := db.mkTable "users" bare_columns [∅].

(** Two snapshots, one at the default path, and a Load request that
    names the other. *)
Definition snapshot_of (name : string) : json.doc :=
  json.Object
    [(name,
      json.Object [("name", json.String name);
                   ("columns", json.Array []);
                   ("rows", json.Array [])])].

Definition two_disk : os.FS :=
  os.mkFS {["database.json" := os.Readable (os.Json (snapshot_of "default"));
            "other.json" := os.Readable (os.Json (snapshot_of "other"))]} ∅.

Definition load_other : json.doc :=
  json.Object [("type", json.Number 6 0); ("payload", json.String "other.json")].

(** A store with the one row of [users] at address 1. *)
Definition users_store : gmap positive (gmap string Value) := {[1%positive := alice]}.
Definition users_ref : heap.Table := heap.mkTable "users" users_columns [1%positive].

(** The values of a decoded command are JSON values. *)
Definition command_wire (cmd : protocol.Command) : Prop :=
  match protocol.Payload cmd with
  | protocol.PInsert p => map_Forall (λ _ v, json_value v = true) (protocol.Insert_Values p)
  | protocol.PUpdate p => map_Forall (λ _ v, json_value v = true) (protocol.Update_Values p)
  | _ => True
  end.

(** ** The worlds the server reaches

    [main] starts from the empty catalog, loads the default snapshot
    when there is one, and then serves requests, while the files may
    change under it. *)
Definition startup (fs : os.FS) : server.World :=
  if os.Stat server.DEFAULT_DB_FILE fs
  then server.mkWorld (db.LoadFromDisk server.DEFAULT_DB_FILE fs db.NewDatabase).1 fs
  else server.mkWorld db.NewDatabase fs.

Inductive reachable : server.World → Prop :=
| reachable_startup fs : reachable (startup fs)
| reachable_serve request w r :
    reachable w → server.serve request w = Some r → reachable r.2
| reachable_disk w fs :
    reachable w → reachable (server.mkWorld (server.database w) fs).

(** ** Further vocabulary *)

(** The payload of a command is the struct of its type, or nil for a
    type that has none. *)
Definition payload_fits (cmd : protocol.Command) : Prop :=
  match protocol.Payload cmd with
  | protocol.PNil =>
      protocol.Type_ cmd ∉ [protocol.CreateTable; protocol.Insert; protocol.Select;
                            protocol.Update; protocol.Delete; protocol.GetTableInfo]
  | protocol.PString _ => False
  | protocol.PCreateTable _ => protocol.Type_ cmd = protocol.CreateTable
  | protocol.PInsert _ => protocol.Type_ cmd = protocol.Insert
  | protocol.PSelect _ => protocol.Type_ cmd = protocol.Select
  | protocol.PUpdate _ => protocol.Type_ cmd = protocol.Update
  | protocol.PDelete _ => protocol.Type_ cmd = protocol.Delete
  | protocol.PGetTableInfo _ => protocol.Type_ cmd = protocol.GetTableInfo
  end.

(** A column as [handleCreateTable] declares it from a payload. *)
Definition declared (col : string * string) : db.Column :=
  db.mkColumn col.1 (if bool_decide (col.2 = "int") then db.TypeInt else db.TypeString).

Definition known_type (col : string * string) : Prop :=
  col.2 = "int" ∨ col.2 = "string".

Definition backupFile : string := server.DEFAULT_DB_FILE +:+ ".bak".

(** The types of the commands that change a table or the catalog. *)
Definition mutating (ty : protocol.CommandType) : Prop :=
  ty = protocol.CreateTable ∨ ty = protocol.Insert ∨
  ty = protocol.Update ∨ ty = protocol.Delete.

(** A catalog that cannot be encoded, and a disk with a snapshot at the
    default path. *)
Definition nan_users : db.Table :=
  db.mkTable "users" users_columns [{["id" := VFloat NaN]}].

Definition old_disk : os.FS :=
  os.mkFS {["database.json" := os.Readable (os.Json (snapshot_of "old"))]} ∅.

(** A snapshot that files a table under a key that is not its name. *)
Definition misfiled_disk : os.FS :=
  os.mkFS
    {["database.json" :=
        os.Readable
          (os.Json (json.Object
                      [("a", json.Object [("name", json.String "b");
                                          ("columns", json.Array []);
                                          ("rows", json.Array [])])]))]} ∅.

(** Two requests: create the table [users], insert Alice. *)
Definition create_users : json.doc :=
  json.Object
    [("type", json.Number 0 0);
     ("payload",
      json.Object
        [("table_name", json.String "users");
         ("columns",
          json.Array [json.Object [("name", json.String "id");
                                   ("type", json.String "int")];
                      json.Object [("name", json.String "name");
                                   ("type", json.String "string")]])])].

Definition insert_alice : json.doc :=
  json.Object
    [("type", json.Number 1 0);
     ("payload",
      json.Object
        [("table_name", json.String "users");
         ("values", json.Object [("id", json.Number 1 0);
                                 ("name", json.String "Alice")])])].

(** ** Whole floats: what [validateValueType] tests *)

Section float_facts.
Local Open Scope Z_scope.

Lemma float_eqb_at m1 e1 m2 e2 c :
  c ≤ e1 → c ≤ e2 →
  float_eqb (Finite m1 e1) (Finite m2 e2) = true ↔
  m1 * 2 ^ (e1 - c) = m2 * 2 ^ (e2 - c).
Proof.
  intros H1 H2. unfold float_eqb. rewrite Z.eqb_eq.
  set (c0 := Z.min e1 e2).
  assert (Hc : c ≤ c0) by (unfold c0; lia).
  replace (e1 - c) with ((e1 - c0) + (c0 - c)) by lia.
  replace (e2 - c) with ((e2 - c0) + (c0 - c)) by lia.
  rewrite !Z.pow_add_r by (unfold c0; lia).
  assert (0 < 2 ^ (c0 - c)) by (apply Z.pow_pos_nonneg; lia).
  split; [intros E; rewrite !Z.mul_assoc, E; reflexivity |].
  rewrite !Z.mul_assoc. intros E. apply Z.mul_reg_r in E; [done | lia].
Qed.

Lemma round_float_shape m e :
  ∃ q k, round_float m e = Finite q (e + k) ∧ 0 ≤ k ∧ Z.abs q ≤ 2 ^ 53.
Proof.
  unfold round_float. destruct (Z.abs m <=? 2 ^ 53) eqn:Hs.
  - exists m, 0. rewrite Z.add_0_r. apply Z.leb_le in Hs. done.
  - apply Z.leb_gt in Hs.
    set (k := Z.log2 (Z.abs m) - 52).
    assert (Hlog : 53 ≤ Z.log2 (Z.abs m)).
    { apply Z.log2_le_pow2; lia. }
    assert (Hk : 0 < k) by (unfold k; lia).
    eexists _, k. split; [reflexivity |]. split; [lia |].
    set (q := Z.abs m / 2 ^ k).
    assert (Hq : 0 ≤ q < 2 ^ 53).
    { unfold q. split; [apply Z.div_pos; [lia | apply Z.pow_pos_nonneg; lia] |].
      apply Z.div_lt_upper_bound; [apply Z.pow_pos_nonneg; lia |].
      rewrite <- Z.pow_add_r by lia.
      replace (k + 53) with (Z.succ (Z.log2 (Z.abs m))) by (unfold k; lia).
      apply Z.log2_spec. lia. }
    match goal with |- Z.abs (_ * ?x) ≤ _ =>
      assert (0 ≤ x ≤ 2 ^ 53) by (repeat case_match; lia); generalize dependent x
    end.
    intros x Hx. clear -Hx. destruct m; cbn [Z.sgn]; lia.
Qed.

Lemma whole_of_eq m e z :
  float_eqb (Finite m e) (round_float z 0) = true → whole m e = true.
Proof.
  destruct (round_float_shape z 0) as (q & k & -> & Hk & _). intros E.
  unfold whole. destruct (0 <=? e) eqn:He; [done |]. apply Z.leb_gt in He.
  apply (float_eqb_at _ _ _ _ e) in E; [| lia | lia].
  rewrite Z.sub_diag, Z.mul_1_r in E. simpl. apply Z.eqb_eq.
  replace (0 + k - e) with (k + - e) in E by lia.
  rewrite Z.pow_add_r in E by lia. rewrite E, Z.mul_assoc.
  apply Z.mod_mul. apply Z.pow_nonzero; lia.
Qed.

Lemma trunc_of_pow m e z :
  m * 2 ^ (e - Z.min e 0) = z * 2 ^ (0 - Z.min e 0) → trunc m e = z.
Proof.
  unfold trunc. destruct (0 <=? e) eqn:He.
  - apply Z.leb_le in He. rewrite Z.min_r by lia. 
    rewrite Z.sub_0_r, Z.sub_diag, Z.mul_1_r. done.
  - apply Z.leb_gt in He. rewrite Z.min_l by lia.
    rewrite Z.sub_diag, Z.mul_1_r, Z.sub_0_l. intros ->.
    apply Z.quot_mul. apply Z.pow_nonzero; lia.
Qed.

Lemma check_sound m e :
  float_eqb (Finite m e) (float64_of_int (int_of_float64 (Finite m e))) = true →
  whole m e = true ∧ fits_int m e = true.
Proof.
  unfold float64_of_int. intros E. split; [by eapply whole_of_eq |].
  revert E. unfold int_of_float64, fits_int.
  destruct ((minInt <=? trunc m e) && (trunc m e <=? maxInt)) eqn:Hr; [done |].
  intros E. exfalso.
  change (round_float minInt 0) with (Finite (- 2 ^ 52) 11) in E.
  apply (float_eqb_at _ _ _ _ (Z.min e 0)) in E; [| lia | lia].
  assert (Ht : trunc m e = minInt).
  { apply trunc_of_pow. rewrite E. unfold minInt.
    replace (11 - Z.min e 0) with (11 + (0 - Z.min e 0)) by lia.
    rewrite Z.pow_add_r by lia. lia. }
  rewrite Ht in Hr. vm_compute in Hr. done.
Qed.

Lemma round_float_exact z k :
  2 ^ 53 < Z.abs z → k = Z.log2 (Z.abs z) - 52 → Z.abs z mod 2 ^ k = 0 →
  round_float z 0 = Finite (Z.sgn z * (Z.abs z / 2 ^ k)) k.
Proof.
  intros Hz -> Hm. unfold round_float.
  destruct (Z.abs z <=? 2 ^ 53) eqn:Hs; [apply Z.leb_le in Hs; lia |].
  assert (53 ≤ Z.log2 (Z.abs z)) by (apply Z.log2_le_pow2; lia).
  rewrite Hm.
  assert (0 < 2 ^ (Z.log2 (Z.abs z) - 52 - 1)) by (apply Z.pow_pos_nonneg; lia).
  destruct (0 <? _) eqn:Hh; [done | apply Z.ltb_ge in Hh; lia].
Qed.

Lemma check_complete m e :
  Z.abs m ≤ 2 ^ 53 → whole m e = true → fits_int m e = true →
  float_eqb (Finite m e) (float64_of_int (int_of_float64 (Finite m e))) = true.
Proof.
  intros Hm Hw Hf. unfold int_of_float64, float64_of_int.
  unfold fits_int in Hf. rewrite Hf. clear Hf.
  unfold trunc, whole in *. destruct (0 <=? e) eqn:He.
  - apply Z.leb_le in He. clear Hw.
    assert (Hp : 0 < 2 ^ e) by (apply Z.pow_pos_nonneg; lia).
    destruct (Z_le_gt_dec (Z.abs (m * 2 ^ e)) (2 ^ 53)) as [Hs | Hs].
    + unfold round_float. apply Z.leb_le in Hs. rewrite Hs.
      apply (float_eqb_at _ _ _ _ 0); [lia | lia |].
      rewrite !Z.sub_0_r. simpl. lia.
    + assert (Hm0 : 0 < Z.abs m) by (destruct m; simpl in *; lia).
      assert (Hlog : Z.log2 (Z.abs (m * 2 ^ e)) = e + Z.log2 (Z.abs m)).
      { rewrite Z.abs_mul, (Z.abs_eq (2 ^ e)) by lia.
        apply Z.log2_mul_pow2; lia. }
      set (k := Z.log2 (Z.abs (m * 2 ^ e)) - 52).
      assert (H53 : 53 ≤ Z.log2 (Z.abs (m * 2 ^ e))) by (apply Z.log2_le_pow2; lia).
      assert (Hdiv : ∃ t, Z.abs (m * 2 ^ e) = t * 2 ^ k).
      { rewrite Z.abs_mul, (Z.abs_eq (2 ^ e)) by lia.
        destruct (Z_le_gt_dec (Z.log2 (Z.abs m)) 52) as [Hl | Hl].
        - exists (Z.abs m * 2 ^ (e - k)).
          rewrite <- Z.mul_assoc, <- Z.pow_add_r by (unfold k; lia).
          f_equal. f_equal. lia.
        - assert (Hm53 : Z.abs m = 2 ^ 53).
          { assert (2 ^ 53 ≤ Z.abs m); [| lia].
            destruct (Z_lt_le_dec (Z.abs m) (2 ^ 53)) as [Hlt|]; [| done].
            apply Z.log2_lt_pow2 in Hlt; lia. }
          exists (2 ^ 52). unfold k. rewrite Hlog, Hm53.
          change (Z.log2 (2 ^ 53)) with 53.
          replace (e + 53 - 52) with (1 + e) by lia.
          rewrite (Z.pow_add_r 2 1 e) by lia. lia. }
      destruct Hdiv as [t Ht].
      assert (Hk : 0 < k) by (unfold k; lia).
      assert (Hpk : 0 < 2 ^ k) by (apply Z.pow_pos_nonneg; lia).
      rewrite (round_float_exact _ k); [| lia | done |].
      2:{ rewrite Ht. apply Z.mod_mul. lia. }
      apply (float_eqb_at _ _ _ _ 0); [lia | lia |].
      rewrite !Z.sub_0_r, Ht, Z.div_mul by lia.
      rewrite <- Z.mul_assoc, <- Ht. lia.
  - apply Z.leb_gt in He. simpl in Hw. apply Z.eqb_eq in Hw.
    assert (Hp : 0 < 2 ^ (- e)) by (apply Z.pow_pos_nonneg; lia).
    apply Z.mod_divide in Hw; [| lia]. destruct Hw as [z ->].
    rewrite Z.quot_mul by lia.
    assert (Z.abs z ≤ 2 ^ 53).
    { rewrite Z.abs_mul, (Z.abs_eq (2 ^ (- e))) in Hm by lia. nia. }
    unfold round_float. destruct (Z.abs z <=? 2 ^ 53) eqn:Hs;
      [| apply Z.leb_gt in Hs; lia].
    destruct (float_eqb_at (z * 2 ^ (- e)) e z 0 e) as [_ Hx]; [lia | lia |].
    apply Hx. replace (e - e) with 0 by lia. replace (0 - e) with (- e) by lia.
    rewrite Z.pow_0_r. lia.
Qed.

End float_facts.

(** ** Validation and the loop of [Insert] *)

Section table_facts.

Lemma validate_kind_sound col v :
  db.validateValueType col v = None → kind_matches col v = true.
Proof.
  unfold db.validateValueType, kind_matches, kind_of_type.
  destruct (db.Column_Type col =? db.TypeInt)%Z.
  - destruct v as [| | |[m e| |]| | |]; try done.
    destruct (float_eqb _ _) eqn:E; [| done]. intros _.
    apply check_sound in E as [Hw Hf]. simpl. by rewrite Hw, Hf.
  - destruct (db.Column_Type col =? db.TypeString)%Z; [| done].
    by destruct v.
Qed.

Lemma validate_kind_complete col v :
  value_valid v = true → kind_matches col v = true →
  db.validateValueType col v = None.
Proof.
  unfold db.validateValueType, kind_matches, kind_of_type.
  destruct (db.Column_Type col =? db.TypeInt)%Z.
  - destruct v as [| | |[m e| |]| | |]; try done.
    intros Hv Hk. simpl in Hv, Hk. apply Z.leb_le in Hv.
    destruct (whole m e) eqn:Hw, (fits_int m e) eqn:Hf; try done.
    by rewrite check_complete.
  - destruct (db.Column_Type col =? db.TypeString)%Z.
    + destruct v as [| | |[m e| |]| | |]; try done. simpl.
      by destruct (whole m e && fits_int m e).
    + destruct (kind_of v) as [[]|]; done.
Qed.

Lemma elem_of_column_names k cols :
  k ∈ column_names cols ↔ ∃ col, col ∈ cols ∧ db.Column_Name col = k.
Proof.
  unfold column_names. rewrite elem_of_list_to_set, list_elem_of_fmap.
  naive_solver.
Qed.

Lemma column_names_cons col cols :
  column_names (col :: cols) = {[db.Column_Name col]} ∪ column_names cols.
Proof. done. Qed.

(** What the loop of [Insert] builds, from any partial row. *)
Lemma Insert_loop_inr cols values row row' :
  db.Insert_loop cols values row = inr row' →
  (∀ k, row' !! k = if decide (k ∈ column_names cols) then values !! k else row !! k) ∧
  (∀ col, col ∈ cols →
     ∃ v, values !! db.Column_Name col = Some v ∧ db.validateValueType col v = None).
Proof.
  revert row. induction cols as [|col cols IH]; intros row; simpl.
  - intros [= ->]. split; [| by intros ? ?%elem_of_nil].
    intros k. by rewrite decide_False by set_solver.
  - destruct (values !! db.Column_Name col) as [val|] eqn:Hval; [| done].
    destruct (db.validateValueType col val) eqn:Hok; [done |].
    intros [Hlook Hall]%IH. split.
    + intros k. rewrite Hlook, column_names_cons.
      destruct (decide (k ∈ column_names cols)).
      * by rewrite decide_True by set_solver.
      * destruct (decide (k = db.Column_Name col)) as [-> | Hne].
        -- rewrite decide_True by set_solver. by rewrite lookup_insert_eq.
        -- rewrite decide_False by set_solver. by rewrite lookup_insert_ne.
    + intros c [-> | Hc]%elem_of_cons; [eauto | auto].
Qed.

Lemma Insert_loop_row cols values row' :
  db.Insert_loop cols values ∅ = inr row' →
  row' = filter (λ kv, kv.1 ∈ column_names cols) values.
Proof.
  intros [Hlook _]%Insert_loop_inr. apply map_eq. intros k.
  rewrite Hlook, lookup_empty. apply option_eq. intros v.
  rewrite map_lookup_filter_Some. simpl. case_decide; naive_solver.
Qed.

Lemma Insert_loop_first_defect cols values row :
  (∀ k v, values !! k = Some v → value_valid v = true) →
  match first_defect cols values with
  | Some (col, Missing) =>
      db.Insert_loop cols values row = inl (db.ErrMissingValue (db.Column_Name col))
  | Some (col, Mismatch) =>
      ∃ cause, db.Insert_loop cols values row = inl (db.ErrColumn (db.Column_Name col) cause)
  | None => ∃ row', db.Insert_loop cols values row = inr row'
  end.
Proof.
  intros Hvalid. revert row. induction cols as [|col cols IH]; intros row; simpl.
  - eauto.
  - unfold defect_of. destruct (values !! db.Column_Name col) as [val|] eqn:Hval; [| done].
    destruct (kind_matches col val) eqn:Hk.
    + rewrite validate_kind_complete by eauto. apply IH.
    + destruct (db.validateValueType col val) eqn:Hok; [eauto |].
      apply validate_kind_sound in Hok. congruence.
Qed.

Lemma first_defect_None cols values :
  first_defect cols values = None ↔
  ∀ col, col ∈ cols →
    ∃ v, values !! db.Column_Name col = Some v ∧ kind_matches col v = true.
Proof.
  induction cols as [|col cols IH]; simpl.
  - split; [by intros _ ? ?%elem_of_nil | done].
  - unfold defect_of. destruct (values !! db.Column_Name col) as [val|] eqn:Hval.
    + destruct (kind_matches col val) eqn:Hk.
      * rewrite IH. split.
        -- intros H c [-> | Hc]%elem_of_cons; [eauto | auto].
        -- intros H c Hc. apply H. by right.
      * split; [done |]. intros H. destruct (H col) as (v & Hv & Hm); [by left |].
        congruence.
    + split; [done |]. intros H. destruct (H col) as (v & Hv & Hm); [by left |].
      congruence.
Qed.

End table_facts.

(** ** Conditions and the loops over the rows *)

Section condition_facts.

Lemma iface_eq_comparable a b :
  comparable b = true → is_Some (iface_eq a b).
Proof. destruct a, b; simpl; try done; eauto. Qed.

Lemma matches_spec conditions row :
  Forall (λ kv, comparable kv.2 = true) conditions →
  server.matches conditions row =
    Some (bool_decide (Forall (λ kv, iface_eq (index row kv.1) kv.2 = Some true) conditions)).
Proof.
  induction 1 as [|kv rest Hc _ IH]; cbn [server.matches].
  - by rewrite bool_decide_eq_true_2.
  - destruct (iface_eq_comparable (index row kv.1) kv.2 Hc) as [b Hb].
    rewrite Hb. cbn [mbind option_bind]. destruct b.
    + rewrite IH. f_equal. apply bool_decide_ext.
      rewrite Forall_cons. naive_solver.
    + rewrite bool_decide_eq_false_2; [done |].
      rewrite Forall_cons. intros [? _]. congruence.
Qed.

Lemma condition_spec conditions row :
  map_Forall (λ _ v, comparable v = true) conditions →
  server.condition conditions row = Some (bool_decide (row_matches conditions row)).
Proof.
  intros Hc. unfold server.condition. rewrite matches_spec.
  - f_equal. apply bool_decide_ext. unfold row_matches.
    rewrite map_Forall_to_list. apply Forall_iff. by intros [k v].
  - apply map_Forall_to_list in Hc. eapply Forall_impl; [exact Hc |].
    by intros [k v].
Qed.

Lemma condition_empty row : server.condition ∅ row = Some true.
Proof. unfold server.condition. by rewrite map_to_list_empty. Qed.

Lemma assign_union (src dst : gmap string Value) : db.assign src dst = src ∪ dst.
Proof.
  unfold db.assign.
  apply (map_fold_weak_ind (λ r (m : gmap string Value), r = m ∪ dst)).
  - by rewrite (left_id_L ∅ (∪)).
  - intros k v m r _ ->. by rewrite insert_union_l.
Qed.

Lemma assign_copy (row : gmap string Value) : db.assign row ∅ = row.
Proof. by rewrite assign_union, (right_id_L ∅ (∪)). Qed.

Context (condition : db.Condition) (P : gmap string Value → Prop)
  `{!∀ row, Decision (P row)}.

Lemma Select_loop_spec rows result :
  Forall (λ row, db.holds condition row = Some (bool_decide (P row))) rows →
  db.Select_loop condition rows result = Some (result ++ filter P rows).
Proof.
  intros Hall. revert result. induction Hall as [|row rows Hrow _ IH]; intros result; simpl.
  - by rewrite app_nil_r.
  - rewrite Hrow. simpl. rewrite IH. rewrite filter_cons.
    destruct (decide (P row)).
    + rewrite bool_decide_eq_true_2 by done. by rewrite assign_copy, <- app_assoc.
    + by rewrite bool_decide_eq_false_2.
Qed.

Lemma Update_loop_spec values rows updated :
  Forall (λ row, db.holds condition row = Some (bool_decide (P row))) rows →
  db.Update_loop condition values rows updated =
    Some (map (λ row, if decide (P row) then values ∪ row else row) rows,
          updated || bool_decide (Exists P rows)).
Proof.
  intros Hall. revert updated.
  induction Hall as [|row rows Hrow _ IH]; intros updated;
    cbn [db.Update_loop map].
  - rewrite (bool_decide_eq_false_2 (Exists P [])) by (by intros ?%Exists_nil).
    by rewrite orb_false_r.
  - rewrite Hrow. cbn [mbind option_bind]. rewrite IH. cbn [mbind option_bind fst snd].
    destruct (decide (P row)).
    + rewrite (bool_decide_eq_true_2 (P row)) by done.
      rewrite assign_union.
      rewrite (bool_decide_eq_true_2 (Exists P (row :: rows))) by (by left).
      by rewrite orb_true_r.
    + rewrite (bool_decide_eq_false_2 (P row)) by done. do 3 f_equal.
      apply bool_decide_ext. rewrite Exists_cons. naive_solver.
Qed.

Lemma Delete_loop_spec rows newRows :
  Forall (λ row, db.holds condition row = Some (bool_decide (P row))) rows →
  is_Some condition →
  db.Delete_loop condition rows newRows =
    Some (newRows ++ filter (λ row, ¬ P row) rows).
Proof.
  intros Hall [f ->]. revert newRows.
  induction Hall as [|row rows Hrow _ IH]; intros newRows; simpl.
  - by rewrite app_nil_r.
  - simpl in Hrow. rewrite Hrow. simpl. rewrite IH. rewrite filter_cons.
    destruct (decide (P row)).
    + rewrite bool_decide_eq_true_2 by done. simpl.
      by rewrite decide_False by tauto.
    + rewrite bool_decide_eq_false_2 by done. simpl.
      rewrite decide_True by done. by rewrite <- app_assoc.
Qed.

End condition_facts.

(** ** Values and rows through [encoding/json] *)

Section codec_facts.

(** Induction over values, through slices and maps. *)
Lemma Value_nested_ind (P : Value → Prop) :
  P VNil → (∀ b, P (VBool b)) → (∀ n, P (VInt n)) → (∀ f, P (VFloat f)) →
  (∀ s, P (VString s)) →
  (∀ xs, Forall P xs → P (VSlice xs)) →
  (∀ kvs, Forall (λ kv, P kv.2) kvs → P (VMap kvs)) →
  ∀ v, P v.
Proof.
  intros Hnil Hbool Hint Hfloat Hstring Hslice Hmap.
  fix IH 1. intros [| b | n | f | s | xs | kvs].
  - apply Hnil.
  - apply Hbool.
  - apply Hint.
  - apply Hfloat.
  - apply Hstring.
  - apply Hslice. induction xs as [|x xs IHxs]; constructor; [apply IH | apply IHxs].
  - apply Hmap. induction kvs as [|[k x] kvs IHkvs]; constructor; [apply IH | apply IHkvs].
Qed.

Lemma doc_nested_ind (P : json.doc → Prop) :
  P json.Null → (∀ b, P (json.Bool b)) → (∀ m e, P (json.Number m e)) →
  (∀ s, P (json.String s)) →
  (∀ items, Forall P items → P (json.Array items)) →
  (∀ members, Forall (λ kv, P kv.2) members → P (json.Object members)) →
  ∀ j, P j.
Proof.
  intros Hnull Hbool Hnum Hstring Harr Hobj.
  fix IH 1. intros [| b | m e | s | items | members].
  - apply Hnull.
  - apply Hbool.
  - apply Hnum.
  - apply Hstring.
  - apply Harr. induction items as [|x xs IHxs]; constructor; [apply IH | apply IHxs].
  - apply Hobj. induction members as [|[k x] kvs IHkvs]; constructor; [apply IH | apply IHkvs].
Qed.

Lemma round_float_valid m e :
  (Z.abs m ≤ 2 ^ 53)%Z → round_float m e = Finite m e.
Proof.
  intros H. unfold round_float. apply Z.leb_le in H. by rewrite H.
Qed.

Lemma encodeValue_decodeValue v :
  json_value v = true →
  ∃ j, json.encodeValue v = Some j ∧ json.decodeValue j = v.
Proof.
  induction v as [| b | n | f | s | xs IH | kvs IH] using Value_nested_ind;
    cbn [json_value json.encodeValue]; try (by eauto); try done.
  - destruct f as [m e | |]; try done. intros Hv. eexists; split; [done |].
    simpl in *. apply Z.leb_le in Hv. by rewrite round_float_valid.
  - intros Hall.
    assert (∃ js, (fix go (l : list Value) : option (list json.doc) :=
                     match l with
                     | [] => Some []
                     | x :: l' => x' ← json.encodeValue x; r ← go l'; Some (x' :: r)
                     end) xs = Some js ∧ map json.decodeValue js = xs) as (js & -> & Hjs).
    { induction IH as [|x xs Hx _ IHxs]; [by exists [] |].
      simpl in Hall. apply andb_true_iff in Hall as [Hx1 Hxs1].
      destruct (Hx Hx1) as (j & -> & Hj). destruct (IHxs Hxs1) as (js & -> & Hjs).
      exists (j :: js). simpl. by rewrite Hj, Hjs. }
    eexists; split; [done |]. simpl. by rewrite Hjs.
  - intros Hall.
    assert (∃ js, (fix go (l : list (string * Value)) : option (list (string * json.doc)) :=
                     match l with
                     | [] => Some []
                     | kv :: l' => x' ← json.encodeValue kv.2; r ← go l'; Some ((kv.1, x') :: r)
                     end) kvs = Some js ∧
                  map (λ kv, (kv.1, json.decodeValue kv.2)) js = kvs) as (js & -> & Hjs).
    { induction IH as [|[k x] kvs Hx _ IHkvs]; [by exists [] |].
      simpl in Hall. apply andb_true_iff in Hall as [Hx1 Hxs1].
      destruct (Hx Hx1) as (j & Hj1 & Hj). destruct (IHkvs Hxs1) as (js & -> & Hjs).
      exists ((k, j) :: js). simpl in *. by rewrite Hj1, Hj, Hjs. }
    eexists; split; [done |]. simpl. by rewrite Hjs.
Qed.

Lemma round_float_is_valid m e : float64_valid (round_float m e) = true.
Proof.
  destruct (round_float_shape m e) as (q & k & -> & _ & Hq). simpl.
  by apply Z.leb_le.
Qed.

Lemma decodeValue_json_value j : json_value (json.decodeValue j) = true.
Proof.
  induction j as [| b | m e | s | items IH | members IH] using doc_nested_ind;
    cbn [json_value json.decodeValue]; try done.
  - pose proof (round_float_is_valid m e) as Hv.
    destruct (round_float_shape m e) as (q & k & Hq & _). rewrite Hq in *. done.
  - induction IH; simpl; [done |]. apply andb_true_iff. done.
  - induction IH; simpl; [done |]. apply andb_true_iff. done.
Qed.

Lemma object_to_map_list_to_map {A} (l : list (string * A)) :
  NoDup l.*1 → json.object_to_map l = list_to_map l.
Proof.
  unfold json.object_to_map.
  induction l as [|[k v] l IH] using rev_ind; [done |].
  rewrite fmap_app, NoDup_app. intros (Hnd & Hk & _).
  rewrite fold_left_app, IH by done. simpl.
  rewrite list_to_map_app. simpl. rewrite insert_empty.
  apply insert_union_singleton_r. apply not_elem_of_list_to_map_1.
  intros Hin. apply (Hk k Hin). simpl. by left.
Qed.

Lemma object_to_map_to_list {A} (m : gmap string A) :
  json.object_to_map (map_to_list m) = m.
Proof.
  rewrite object_to_map_list_to_map by apply NoDup_fst_map_to_list.
  apply list_to_map_to_list.
Qed.

Lemma object_to_map_fmap {A B} (f : A → B) (m : gmap string A) :
  json.object_to_map (map (λ kv, (kv.1, f kv.2)) (map_to_list m)) = f <$> m.
Proof.
  rewrite object_to_map_list_to_map.
  - rewrite <- (list_to_map_to_list m) at 2. rewrite <- list_to_map_fmap.
    f_equal.
  - replace ((map (λ kv, (kv.1, f kv.2)) (map_to_list m)).*1)
      with ((map_to_list m).*1); [apply NoDup_fst_map_to_list |].
    rewrite <- list_fmap_compose. by apply list_fmap_ext.
Qed.

(** A total form of [encodeValue], for the values it accepts. *)
Lemma mapM_total {A B} (f : A → option B) (g : A → B) (l : list A) :
  Forall (λ x, f x = Some (g x)) l → mapM f l = Some (map g l).
Proof.
  intros H. apply mapM_Some. induction H; constructor; auto.
Qed.

Lemma encodeMap_decodeMap (row : gmap string Value) :
  map_Forall (λ _ v, json_value v = true) row →
  ∃ j, json.encodeMap row = Some j ∧ json.decodeMap j = Some row.
Proof.
  intros Hrow. unfold json.encodeMap.
  set (enc := λ v, default json.Null (json.encodeValue v)).
  rewrite (mapM_total _ (λ kv, (kv.1, enc kv.2))).
  - eexists; split; [done |]. simpl. f_equal.
    rewrite object_to_map_fmap, <- map_fmap_compose.
    rewrite <- (map_fmap_id row) at 2. apply map_fmap_ext.
    intros k v Hv. simpl. unfold enc.
    destruct (encodeValue_decodeValue v (Hrow k v Hv)) as (j & -> & Hj). done.
  - apply map_Forall_to_list in Hrow. eapply Forall_impl; [exact Hrow |].
    intros [k v] Hv. simpl in *. unfold enc.
    destruct (encodeValue_decodeValue v Hv) as (j & -> & Hj). done.
Qed.

Lemma decodeMap_json_value j row :
  json.decodeMap j = Some row → map_Forall (λ _ v, json_value v = true) row.
Proof.
  destruct j; try done; simpl; intros [= <-].
  - apply map_Forall_empty.
  - intros k v. rewrite lookup_fmap. intros (j & _ & ->)%fmap_Some.
    apply decodeValue_json_value.
Qed.

End codec_facts.

(** ** Tables through the snapshot file *)

Section snapshot_facts.

Lemma mapM_roundtrip {A B} (f : A → option B) (g : B → option A) (l : list A) :
  Forall (λ x, ∃ y, f x = Some y ∧ g y = Some x) l →
  ∃ k, mapM f l = Some k ∧ mapM g k = Some l.
Proof.
  induction 1 as [|x l (y & Hf & Hg) _ (k & Hk & Hl)]; [by exists [] |].
  exists (y :: k). simpl. rewrite Hf, Hk, Hg, Hl. done.
Qed.

Lemma field_name_type (n ty : json.doc) :
  json.field "name" [("name", n); ("type", ty)] = n ∧
  json.field "type" [("name", n); ("type", ty)] = ty.
Proof.
  unfold json.field, json.member, json.object_to_map. simpl.
  rewrite lookup_insert_ne by done. by rewrite !lookup_insert_eq.
Qed.

Lemma decodeColumn_encodeColumn col :
  (minInt ≤ db.Column_Type col ≤ maxInt)%Z →
  db.decodeColumn (db.encodeColumn col) = Some col.
Proof.
  intros Hty. destruct col as [name ty]. unfold db.encodeColumn, db.decodeColumn.
  cbn [db.Column_Name db.Column_Type] in *.
  destruct (field_name_type (json.String name) (json.Number ty 0)) as [-> ->].
  simpl in *. unfold whole, trunc. simpl. rewrite Z.mul_1_r.
  destruct (minInt <=? ty)%Z eqn:H1; [| apply Z.leb_gt in H1; lia].
  destruct (ty <=? maxInt)%Z eqn:H2; [| apply Z.leb_gt in H2; lia].
  done.
Qed.

Lemma field_table (n cs rs : json.doc) :
  let members := [("name", n); ("columns", cs); ("rows", rs)] in
  json.field "name" members = n ∧
  json.field "columns" members = cs ∧
  json.field "rows" members = rs.
Proof.
  unfold json.field, json.member, json.object_to_map. simpl.
  rewrite !lookup_insert_eq.
  rewrite (lookup_insert_ne _ "rows" "columns") by done.
  rewrite (lookup_insert_ne _ "rows" "name") by done.
  rewrite (lookup_insert_ne _ "columns" "name") by done.
  by rewrite !lookup_insert_eq.
Qed.

Lemma encodeTableData_decodeTableData t :
  table_wire t →
  ∃ j, db.encodeTableData (to_data t) = Some j ∧ db.decodeTableData j = Some (to_data t).
Proof.
  intros [Hcols Hrows]. unfold db.encodeTableData.
  destruct (mapM_roundtrip json.encodeMap json.decodeMap (db.Rows t)) as (rs & Hrs & Hback).
  { eapply Forall_impl; [exact Hrows |]. intros row. apply encodeMap_decodeMap. }
  simpl. rewrite Hrs. simpl. eexists; split; [done |].
  unfold db.decodeTableData.
  match goal with |- context [json.field "name" ?m] =>
    destruct (field_table (json.String (db.Table_Name t))
                (json.Array (map db.encodeColumn (db.Columns t))) (json.Array rs))
      as (-> & -> & ->)
  end.
  simpl. rewrite Hback.
  rewrite (proj2 (mapM_Some _ _ (db.Columns t))); [done |].
  clear -Hcols. induction Hcols; constructor; [by apply decodeColumn_encodeColumn | done].
Qed.

Lemma Encode_Decode (tables : gmap string db.Table) :
  map_Forall (λ _ t, table_wire t) tables →
  ∃ j, db.Encode (to_data <$> tables) = Some j ∧
       db.Decode j = Some (to_data <$> tables).
Proof.
  intros Hwire. unfold db.Encode.
  destruct (mapM_roundtrip
              (λ kv : string * db.TableData, d ← db.encodeTableData kv.2; Some (kv.1, d))
              (λ kv : string * json.doc, td ← db.decodeTableData kv.2; Some (kv.1, td))
              (map_to_list (to_data <$> tables))) as (members & -> & Hback).
  { apply Forall_forall. intros [k td] Hin.
    apply elem_of_map_to_list in Hin. rewrite lookup_fmap in Hin.
    apply fmap_Some in Hin as (t & Ht & ->).
    destruct (encodeTableData_decodeTableData t (Hwire k t Ht)) as (j & Hj & Hd).
    exists (k, j). simpl. by rewrite Hj, Hd. }
  eexists; split; [done |]. simpl. rewrite Hback. simpl.
  by rewrite object_to_map_to_list.
Qed.

Lemma LoadFromDisk_tables_to_data (tables : gmap string db.Table) :
  map_Forall (λ name t, db.Table_Name t = name) tables →
  db.LoadFromDisk_tables (to_data <$> tables) = tables.
Proof.
  intros Hkeyed. unfold db.LoadFromDisk_tables.
  set (of_data := λ td, db.mkTable (db.TableData_Name td) (db.TableData_Columns td)
                          (db.TableData_Rows td)).
  assert (Hgen : ∀ data : gmap string db.TableData,
            map_Forall (λ name td, db.TableData_Name td = name) data →
            map_fold (λ _ td acc, <[db.TableData_Name td := of_data td]> acc) ∅ data
            = of_data <$> data).
  { intros data.
    apply (map_fold_weak_ind
             (λ r (m : gmap string db.TableData),
                map_Forall (λ name td, db.TableData_Name td = name) m → r = of_data <$> m)).
    - intros _. by rewrite fmap_empty.
    - intros k td m r Hk IH Hm. rewrite fmap_insert.
      rewrite (Hm k td) by apply lookup_insert_eq. f_equal. apply IH.
      intros k' td' Hk'. apply Hm. rewrite lookup_insert_ne; [done |]. congruence. }
  rewrite Hgen.
  - rewrite <- map_fmap_compose. rewrite <- (map_fmap_id tables) at 2.
    apply map_fmap_ext. by intros k [] _.
  - intros k td. rewrite lookup_fmap. intros (t & Ht & ->)%fmap_Some. simpl.
    by apply Hkeyed.
Qed.

Lemma Open_write name c fs : os.Open name (os.write name c fs) = Some c.
Proof. unfold os.Open, os.write. simpl. by rewrite lookup_insert_eq. Qed.

End snapshot_facts.

(** ** [Select] on references *)

Section heap_facts.

Lemma deref_lookup (σ : gmap positive (gmap string Value)) l m :
  σ !! l = Some m → heap.deref σ l = m.
Proof. unfold heap.deref. by intros ->. Qed.

Lemma deref_weaken (σ σ' : gmap positive (gmap string Value)) l :
  σ ⊆ σ' → l ∈ dom σ → heap.deref σ' l = heap.deref σ l.
Proof.
  intros Hsub [m Hm]%elem_of_dom. rewrite (deref_lookup σ l m Hm).
  apply deref_lookup. by eapply lookup_weaken.
Qed.

Lemma contents_weaken (σ σ' : gmap positive (gmap string Value)) rows :
  σ ⊆ σ' → Forall (λ l, l ∈ dom σ) rows →
  heap.contents σ' rows = heap.contents σ rows.
Proof.
  intros Hsub Hrows. unfold heap.contents. apply Forall_fmap_ext.
  eapply Forall_impl; [exact Hrows |]. intros l. by apply deref_weaken.
Qed.

Lemma copy_into_spec (σ : gmap positive (gmap string Value)) row l m0 :
  σ !! l = Some m0 → heap.copy_into row l σ = <[l := row ∪ m0]> σ.
Proof.
  intros Hl. unfold heap.copy_into.
  apply (map_fold_weak_ind
           (λ r (m : gmap string Value), r = <[l := m ∪ m0]> σ)).
  - rewrite (left_id_L ∅ (∪)). symmetry. by apply insert_id.
  - intros k v m r _ ->. unfold heap.store_key.
    rewrite (deref_lookup _ l (m ∪ m0)) by apply lookup_insert_eq.
    by rewrite insert_insert_eq, insert_union_l.
Qed.

(** One pass of the loop body for a row that is selected: a fresh map
    with the row's entries, everything else as it was. *)
Lemma Select_copy (σ : gmap positive (gmap string Value)) row :
  (fst (heap.make σ) ∉ dom σ) ∧
  heap.copy_into (heap.deref (snd (heap.make σ)) row) (fst (heap.make σ))
    (snd (heap.make σ))
  = <[fst (heap.make σ) := heap.deref (snd (heap.make σ)) row]> σ.
Proof.
  simpl. split; [apply is_fresh |].
  rewrite (copy_into_spec _ _ _ ∅) by apply lookup_insert_eq.
  by rewrite (right_id_L ∅ (∪)), insert_insert_eq.
Qed.

Context (condition : db.Condition) (P : gmap string Value → Prop)
  `{!∀ row, Decision (P row)}.

Lemma heap_Select_loop_spec rows result (σ : gmap positive (gmap string Value)) :
  Forall (λ l, l ∈ dom σ) rows →
  Forall (λ l, db.holds condition (heap.deref σ l)
               = Some (bool_decide (P (heap.deref σ l)))) rows →
  ∃ new σ',
    heap.Select_loop condition rows result σ = Some (result ++ new, σ') ∧
    σ ⊆ σ' ∧
    Forall (λ l, (l ∉ dom σ) ∧ (l ∈ dom σ')) new ∧
    NoDup new ∧
    heap.contents σ' new = filter P (heap.contents σ rows).
Proof.
  intros Hdom. revert result σ Hdom.
  induction rows as [|row rows IH]; intros result σ Hdom Hcond;
    cbn [heap.Select_loop]; cbv zeta.
  - exists [], σ. rewrite app_nil_r. repeat split; try done. constructor.
  - apply Forall_cons in Hdom as [Hrow Hdom]. apply Forall_cons in Hcond as [Hc Hcond].
    rewrite Hc. cbn [mbind option_bind]. unfold heap.contents. cbn [map].
    rewrite filter_cons. destruct (decide (P (heap.deref σ row))) as [HP | HP].
    + rewrite (bool_decide_eq_true_2 _ HP).
      destruct (Select_copy σ row) as [Hfresh ->].
      set (l := fst (heap.make σ)) in *.
      assert (Hsub : σ ⊆ <[l := heap.deref (snd (heap.make σ)) row]> σ).
      { apply insert_subseteq. by apply not_elem_of_dom. }
      assert (Hrowl : heap.deref (snd (heap.make σ)) row = heap.deref σ row).
      { apply deref_weaken; [| done]. apply insert_subseteq. by apply not_elem_of_dom. }
      rewrite Hrowl in *.
      destruct (IH (result ++ [l]) (<[l := heap.deref σ row]> σ))
        as (new & σ' & -> & Hsub' & Hnew & Hnd & Hcont).
      { eapply Forall_impl; [exact Hdom |]. intros l'. rewrite dom_insert. set_solver. }
      { rewrite Forall_forall in Hcond, Hdom. apply Forall_forall. intros l' Hl'.
        rewrite (deref_weaken σ) by auto. auto. }
      exists (l :: new), σ'. rewrite <- app_assoc. split; [done |].
      split; [by etrans |]. split; [| split].
      * constructor.
        -- split; [done |]. apply elem_of_dom. exists (heap.deref σ row).
           eapply lookup_weaken; [| exact Hsub']. apply lookup_insert_eq.
        -- eapply Forall_impl; [exact Hnew |]. intros l' [Hl1 Hl2].
           split; [| done]. rewrite dom_insert in Hl1. set_solver.
      * constructor; [| done]. intros Hin. rewrite Forall_forall in Hnew.
        destruct (Hnew l Hin) as [Hl _]. rewrite dom_insert in Hl. set_solver.
      * cbn [map]. f_equal.
        -- apply deref_lookup. eapply lookup_weaken; [| exact Hsub'].
           apply lookup_insert_eq.
        -- fold (heap.contents σ' new). rewrite Hcont. f_equal.
           by apply contents_weaken.
    + rewrite (bool_decide_eq_false_2 _ HP).
      destruct (IH result σ Hdom Hcond) as (new & σ' & -> & ?). by exists new, σ'.
Qed.

End heap_facts.

(** ** The operations on contents describe the operations on references *)

Section heap_simulation.

Implicit Types σ : gmap positive (gmap string Value).

Lemma store_key_lookup σ l k v m0 :
  σ !! l = Some m0 → heap.store_key l k v σ = <[l := <[k := v]> m0]> σ.
Proof. intros Hl. unfold heap.store_key. by rewrite (deref_lookup σ l m0). Qed.

Lemma heap_Insert_loop_spec cols values l σ m0 :
  σ !! l = Some m0 →
  heap.Insert_loop cols values l σ =
    match db.Insert_loop cols values m0 with
    | inl err => inl err
    | inr row => inr (<[l := row]> σ)
    end.
Proof.
  revert σ m0. induction cols as [|col cols IH]; intros σ m0 Hl; simpl.
  - by rewrite insert_id.
  - destruct (values !! db.Column_Name col) as [val|]; [| done].
    destruct (db.validateValueType col val); [done |].
    rewrite (store_key_lookup σ l _ _ m0) by done.
    rewrite (IH _ (<[db.Column_Name col := val]> m0)) by apply lookup_insert_eq.
    destruct (db.Insert_loop cols values _); [done |]. by rewrite insert_insert_eq.
Qed.

Lemma contents_insert_fresh σ l m rows :
  l ∉ dom σ → Forall (λ l', l' ∈ dom σ) rows →
  heap.contents (<[l := m]> σ) rows = heap.contents σ rows.
Proof.
  intros Hl Hrows. apply contents_weaken; [| done].
  apply insert_subseteq. by apply not_elem_of_dom.
Qed.

(** [Insert] on references: the table's view afterwards is what
    [db.Insert] gives on the view before, and the table stays
    well-formed. *)
Lemma heap_Insert_view values t σ :
  heap.wf σ t →
  let r := heap.Insert values t σ in
  (heap.view r.1.2 r.1.1, r.2) = db.Insert values (heap.view σ t) ∧
  heap.wf r.1.2 r.1.1.
Proof.
  intros [Hnd Hdom]. unfold heap.Insert, db.Insert. cbv zeta.
  pose proof (is_fresh (dom σ)) as Hfresh.
  unfold heap.make. cbn [fst snd]. set (l := fresh (dom σ)) in *.
  rewrite (heap_Insert_loop_spec _ _ l _ ∅) by apply lookup_insert_eq.
  cbn [heap.view db.Columns heap.Columns].
  destruct (db.Insert_loop (heap.Columns t) values ∅) as [err | row]; cbn [fst snd].
  - split.
    + f_equal. unfold heap.view. f_equal. by apply contents_insert_fresh.
    + split; [done |]. eapply Forall_impl; [exact Hdom |].
      intros l'. rewrite dom_insert. set_solver.
  - rewrite insert_insert_eq. split.
    + f_equal. unfold heap.view. cbn [heap.Table_Name heap.Columns heap.Rows db.Rows].
      f_equal. unfold heap.contents. rewrite map_app. cbn [map]. f_equal.
      * by apply contents_insert_fresh.
      * f_equal. apply deref_lookup, lookup_insert_eq.
    + split; cbn [heap.Rows].
      * apply NoDup_app. split; [done |]. split; [| apply NoDup_singleton].
        intros l' Hl' ->%list_elem_of_singleton. rewrite Forall_forall in Hdom. auto.
      * apply Forall_app. split.
        -- eapply Forall_impl; [exact Hdom |]. intros l'. rewrite dom_insert. set_solver.
        -- apply Forall_singleton. rewrite dom_insert. set_solver.
Qed.

Lemma heap_Update_loop_spec condition values rows updated σ :
  NoDup rows → Forall (λ l, l ∈ dom σ) rows →
  match db.Update_loop condition values (heap.contents σ rows) updated with
  | None => heap.Update_loop condition values rows updated σ = None
  | Some r =>
      ∃ σ', heap.Update_loop condition values rows updated σ = Some (σ', r.2) ∧
            heap.contents σ' rows = r.1 ∧
            dom σ' = dom σ ∧
            ∀ l, l ∉ rows → σ' !! l = σ !! l
  end.
Proof.
  revert updated σ. induction rows as [|l rows IH]; intros updated σ Hnd Hdom;
    cbn [heap.contents map db.Update_loop heap.Update_loop].
  - by exists σ.
  - apply NoDup_cons in Hnd as [Hl Hnd]. apply Forall_cons in Hdom as [Hlσ Hdom].
    destruct (db.holds condition (heap.deref σ l)) as [hit|]; [| done].
    cbn [mbind option_bind].
    apply elem_of_dom in Hlσ as [m0 Hm0].
    set (σ1 := if hit then heap.copy_into values l σ else σ).
    assert (Hσ1 : σ1 = if hit then <[l := values ∪ m0]> σ else σ).
    { unfold σ1. destruct hit; [| done]. by apply copy_into_spec. }
    assert (Hdom1 : dom σ1 = dom σ).
    { rewrite Hσ1. destruct hit; [| done]. rewrite dom_insert_L.
      assert (l ∈ dom σ) by (apply elem_of_dom; eauto). set_solver. }
    assert (Hother : ∀ l', l' ≠ l → σ1 !! l' = σ !! l').
    { intros l' Hne. rewrite Hσ1. destruct hit; [| done]. by rewrite lookup_insert_ne. }
    assert (Hrest : heap.contents σ1 rows = heap.contents σ rows).
    { unfold heap.contents. apply Forall_fmap_ext, Forall_forall. intros l' Hl'.
      unfold heap.deref. rewrite Hother; [done |]. by intros ->. }
    specialize (IH (if hit then true else updated) σ1 Hnd).
    rewrite Hrest in IH. fold (heap.contents σ rows).
    destruct (db.Update_loop condition values (heap.contents σ rows) _) as [r|];
      cbn [mbind option_bind].
    + destruct IH as (σ' & -> & Hcont & Hd & Hsame).
      { by rewrite Hdom1. }
      exists σ'. split; [done |]. cbn [fst snd]. split; [| split].
      * f_equal; [| done]. unfold heap.deref at 1. rewrite Hsame by done.
        rewrite (deref_lookup σ l m0 Hm0), Hσ1.
        destruct hit; [| by rewrite Hm0].
        by rewrite lookup_insert_eq, assign_union.
      * by rewrite Hd.
      * intros l' Hl'. apply not_elem_of_cons in Hl' as [? ?].
        rewrite Hsame by done. by apply Hother.
    + apply IH. by rewrite Hdom1.
Qed.

(** [Update] on references, for a table whose rows are distinct maps. *)
Lemma heap_Update_view condition values t σ :
  heap.wf σ t →
  match db.Update condition values (heap.view σ t) with
  | None => heap.Update condition values t σ = None
  | Some r =>
      ∃ σ', heap.Update condition values t σ = Some (σ', r.2) ∧
            heap.view σ' t = r.1 ∧ heap.wf σ' t
  end.
Proof.
  intros [Hnd Hdom]. unfold db.Update, heap.Update. cbn [heap.view db.Columns db.Rows].
  destruct (db.Update_validate (heap.Columns t) values) as [err|].
  - exists σ. done.
  - pose proof (heap_Update_loop_spec condition values (heap.Rows t) false σ Hnd Hdom) as H.
    destruct (db.Update_loop condition values _ false) as [r|]; cbn [mbind option_bind].
    + destruct H as (σ' & -> & Hcont & Hd & _). cbn [mbind option_bind fst snd].
      assert (heap.wf σ' t) by (split; [done | by rewrite Hd]).
      destruct r.2; exists σ'; cbn [fst snd db.Table_Name]; unfold heap.view;
        by rewrite Hcont.
    + by rewrite H.
Qed.

Lemma heap_Delete_loop_spec condition rows newRows σ :
  heap.contents σ <$> heap.Delete_loop condition rows newRows σ
  = db.Delete_loop condition (heap.contents σ rows) (heap.contents σ newRows).
Proof.
  revert newRows. induction rows as [|l rows IH]; intros newRows;
    cbn [heap.contents map db.Delete_loop heap.Delete_loop]; [done |].
  destruct (db.holds_not condition (heap.deref σ l)) as [keep|]; [| done].
  cbn [mbind option_bind]. rewrite IH. f_equal.
  destruct keep; [| done]. unfold heap.contents. by rewrite map_app.
Qed.

Lemma length_contents σ rows : length (heap.contents σ rows) = length rows.
Proof. unfold heap.contents. apply length_map. Qed.

(** [Delete] on references. *)
Lemma heap_Delete_view condition t σ :
  (λ r, (heap.view σ r.1, r.2)) <$> heap.Delete condition t σ
  = db.Delete condition (heap.view σ t).
Proof.
  unfold heap.Delete, db.Delete. cbn [heap.view db.Rows db.Table_Name db.Columns].
  pose proof (heap_Delete_loop_spec condition (heap.Rows t) [] σ) as H.
  cbn [heap.contents map] in H. fold (heap.contents σ (heap.Rows t)) in H.
  rewrite <- H.
  destruct (heap.Delete_loop condition (heap.Rows t) [] σ) as [newRows|];
    cbn [fmap option_fmap option_map mbind option_bind]; [| done].
  rewrite !length_contents.
  destruct (Z.of_nat (length (heap.Rows t)) - Z.of_nat (length newRows) =? 0)%Z;
    reflexivity.
Qed.

End heap_simulation.

(** ** The operations keep the invariant of the rows *)

Section invariant_facts.

Lemma Update_validate_None cols values :
  db.Update_validate cols values = None →
  ∀ col v, col ∈ cols → values !! db.Column_Name col = Some v →
    db.validateValueType col v = None.
Proof.
  induction cols as [|c cols IH]; simpl; [by intros _ ? ? ?%elem_of_nil |].
  destruct (values !! db.Column_Name c) as [val|] eqn:Hval.
  - destruct (db.validateValueType c val) eqn:Hok; [done |].
    intros H col v [-> | Hc]%elem_of_cons Hv; [congruence | eauto].
  - intros H col v [-> | Hc]%elem_of_cons Hv; [congruence | eauto].
Qed.

Lemma Update_validate_Some cols values err :
  db.Update_validate cols values = Some err →
  ∃ col v cause, col ∈ cols ∧ values !! db.Column_Name col = Some v ∧
    db.validateValueType col v = Some cause ∧
    err = db.ErrColumn (db.Column_Name col) cause.
Proof.
  induction cols as [|c cols IH]; simpl; [done |].
  destruct (values !! db.Column_Name c) as [val|] eqn:Hval.
  - destruct (db.validateValueType c val) as [cause|] eqn:Hok.
    + intros [= <-]. exists c, val, cause. repeat split; try done. by left.
    + intros (col & v & cause & ? & ?)%IH. exists col, v, cause. split; [by right | done].
  - intros (col & v & cause & ? & ?)%IH. exists col, v, cause. split; [by right | done].
Qed.

Lemma Update_validate_mismatch cols values col v :
  col ∈ cols → values !! db.Column_Name col = Some v → kind_matches col v = false →
  is_Some (db.Update_validate cols values).
Proof.
  intros Hc Hv Hk. destruct (db.Update_validate cols values) eqn:E; [done |].
  pose proof (Update_validate_None _ _ E col v Hc Hv) as Hok.
  apply validate_kind_sound in Hok. congruence.
Qed.

Lemma Update_loop_rows condition values rows updated r :
  db.Update_loop condition values rows updated = Some r →
  Forall2 (λ row row', row' = row ∨ row' = values ∪ row) rows r.1.
Proof.
  revert updated r. induction rows as [|row rows IH]; intros updated r; simpl.
  - intros [= <-]. constructor.
  - destruct (db.holds condition row) as [hit|]; [| done]. simpl.
    destruct (db.Update_loop condition values rows _) as [r'|] eqn:E; [| done].
    simpl. intros [= <-]. simpl. constructor; [| by eapply IH].
    destruct hit; [right; apply assign_union | by left].
Qed.

Lemma Delete_loop_Forall (Q : gmap string Value → Prop) condition rows newRows r :
  db.Delete_loop condition rows newRows = Some r →
  Forall Q newRows → Forall Q rows → Forall Q r.
Proof.
  revert newRows. induction rows as [|row rows IH]; intros newRows; simpl.
  - by intros [= <-].
  - destruct (db.holds_not condition row) as [keep|]; [| done]. simpl.
    intros E Hacc [Hrow Hrows]%Forall_cons. eapply IH; [exact E | | done].
    destruct keep; [| done]. apply Forall_app. split; [done |]. by constructor.
Qed.

Lemma row_ok_Insert cols values row :
  db.Insert_loop cols values ∅ = inr row → row_ok cols row.
Proof.
  intros [Hlook Hall]%Insert_loop_inr. split.
  - apply set_eq. intros k. rewrite elem_of_dom, Hlook, lookup_empty.
    case_decide as Hk; [| split; [by intros [] | done]].
    split; [done |]. intros _.
    apply elem_of_column_names in Hk as (col & Hc & <-).
    destruct (Hall col Hc) as (v & -> & _). done.
  - intros col Hc. destruct (Hall col Hc) as (v & Hv & Hok).
    exists v. split; [| by apply validate_kind_sound].
    rewrite Hlook, decide_True; [done |]. apply elem_of_column_names. eauto.
Qed.

Lemma row_ok_Update cols values row :
  db.Update_validate cols values = None →
  dom values ⊆ column_names cols →
  row_ok cols row → row_ok cols (values ∪ row).
Proof.
  intros Hval Hdom [Hd Hall]. split.
  - rewrite dom_union_L, Hd. set_solver.
  - intros col Hc. destruct (values !! db.Column_Name col) as [v|] eqn:Hv.
    + exists v. split; [by apply lookup_union_Some_l |].
      apply validate_kind_sound. by eapply Update_validate_None.
    + destruct (Hall col Hc) as (v & Hrow & Hk). exists v. split; [| done].
      by rewrite lookup_union_r.
Qed.

Lemma CreateTable_new name columns tables tables' t :
  db.CreateTable name columns tables = (tables', None) →
  tables' !! name = Some t → t = db.mkTable name columns [].
Proof.
  unfold db.CreateTable. destruct (tables !! name); [done |].
  intros [= <-]. rewrite lookup_insert_eq. by intros [= <-].
Qed.

Lemma Insert_inv values t : table_inv t → table_inv (db.Insert values t).1.
Proof.
  unfold db.Insert, table_inv.
  destruct (db.Insert_loop (db.Columns t) values ∅) as [err | row] eqn:E; [done |].
  simpl. intros H. apply Forall_app. split; [done |].
  constructor; [| done]. by apply (row_ok_Insert _ values).
Qed.

Lemma Update_inv condition values t r :
  dom values ⊆ column_names (db.Columns t) →
  db.Update condition values t = Some r → table_inv t → table_inv r.1.
Proof.
  unfold db.Update, table_inv. intros Hdom.
  destruct (db.Update_validate (db.Columns t) values) eqn:Hval; [by intros [= <-] |].
  destruct (db.Update_loop condition values (db.Rows t) false) as [r'|] eqn:E; [| done].
  simpl. intros Hr Hinv.
  assert (Forall (row_ok (db.Columns t)) r'.1) as Hrows.
  { apply Update_loop_rows in E. revert Hinv. clear -E Hval Hdom.
    induction E as [|row row' rows rows' [-> | ->] _ IH]; intros Hinv.
    - constructor.
    - apply Forall_cons in Hinv as [? ?]. constructor; auto.
    - apply Forall_cons in Hinv as [? ?]. constructor; auto.
      by apply row_ok_Update. }
  by destruct r'.2; injection Hr as <-.
Qed.

Lemma Delete_inv condition t r :
  db.Delete condition t = Some r → table_inv t → table_inv r.1.
Proof.
  unfold db.Delete, table_inv.
  destruct (db.Delete_loop condition (db.Rows t) []) as [newRows|] eqn:E; [| done].
  simpl. intros Hr Hinv.
  assert (Forall (row_ok (db.Columns t)) newRows) by (by eapply Delete_loop_Forall).
  by case_match; injection Hr as <-.
Qed.

End invariant_facts.

(** ** The catalogs the server reaches *)

Section reachable_facts.

Lemma decodeInt_range j z :
  json.decodeInt j = Some z → (minInt ≤ z ≤ maxInt)%Z.
Proof.
  destruct j as [| | m e | | |]; try done; simpl.
  - intros [= <-]. by vm_compute.
  - destruct (whole m e); [| done]. simpl.
    destruct (minInt <=? trunc m e)%Z eqn:H1; [| done].
    destruct (trunc m e <=? maxInt)%Z eqn:H2; [| done].
    intros [= <-]. apply Z.leb_le in H1, H2. done.
Qed.

Lemma decodeSlice_Forall {A} (elem : json.doc → option A) (Q : A → Prop) j l :
  (∀ x y, elem x = Some y → Q y) →
  json.decodeSlice elem j = Some l → Forall Q l.
Proof.
  intros Helem. destruct j as [| | | | items |]; try done; simpl.
  - intros [= <-]. constructor.
  - intros Hm%mapM_Some. induction Hm; constructor; eauto.
Qed.

Lemma decodeTableData_wire j td :
  db.decodeTableData j = Some td →
  table_wire (db.mkTable (db.TableData_Name td) (db.TableData_Columns td)
                (db.TableData_Rows td)).
Proof.
  destruct j as [| | | | | members]; try done; simpl.
  - intros [= <-]. split; constructor.
  - intros (name & _ & (cols & Hcols & (rows & Hrows & [= <-])%bind_Some)%bind_Some)%bind_Some.
    split; simpl.
    + eapply decodeSlice_Forall; [| exact Hcols]. intros x col.
      destruct x as [| | | | | ms]; try done; simpl.
      * intros [= <-]. by vm_compute.
      * intros (? & _ & (ty & Hty & [= <-])%bind_Some)%bind_Some. simpl.
        by eapply decodeInt_range.
    + eapply decodeSlice_Forall; [| exact Hrows]. intros x row.
      apply decodeMap_json_value.
Qed.

Lemma object_to_map_Forall {A} (Q : string → A → Prop) (members : list (string * A)) :
  Forall (λ kv, Q kv.1 kv.2) members → map_Forall Q (json.object_to_map members).
Proof.
  unfold json.object_to_map. induction members as [|kv members IH] using rev_ind.
  - intros _. apply map_Forall_empty.
  - intros [Hm [Hkv _]%Forall_cons]%Forall_app. rewrite fold_left_app. simpl.
    apply map_Forall_insert_2; auto.
Qed.

Lemma LoadFromDisk_tables_wire data :
  map_Forall (λ _ td, table_wire (db.mkTable (db.TableData_Name td)
                                    (db.TableData_Columns td) (db.TableData_Rows td)))
             data →
  catalog_wire (db.LoadFromDisk_tables data).
Proof.
  unfold db.LoadFromDisk_tables.
  apply (map_fold_weak_ind
           (λ r (m : gmap string db.TableData),
              map_Forall (λ _ td, table_wire (db.mkTable (db.TableData_Name td)
                                    (db.TableData_Columns td) (db.TableData_Rows td))) m →
              catalog_wire r)).
  - intros _. apply map_Forall_empty.
  - intros k td m r Hk IH Hm. apply map_Forall_insert_2.
    + split; [done |]. apply (Hm k). apply lookup_insert_eq.
    + apply IH. intros k' td' Hk'. apply (Hm k'). rewrite lookup_insert_ne; [done |].
      congruence.
Qed.

Lemma LoadFromDisk_wire filename fs tables :
  catalog_wire tables → catalog_wire (db.LoadFromDisk filename fs tables).1.
Proof.
  intros Hw. unfold db.LoadFromDisk.
  destruct (os.Open filename fs) as [[| j]|]; try done.
  destruct (db.Decode j) as [data|] eqn:Hd; [| done]. simpl.
  apply LoadFromDisk_tables_wire.
  destruct j as [| | | | | members]; try done; simpl in Hd.
  - injection Hd as <-. apply map_Forall_empty.
  - apply fmap_Some in Hd as (l & Hl%mapM_Some & ->).
    apply object_to_map_Forall.
    induction Hl as [|[k j] [k' td] ? ? Hkv _ IH]; constructor; [| done].
    simpl in *. apply bind_Some in Hkv as (td' & Htd & [= _ <-]).
    by eapply decodeTableData_wire.
Qed.

Lemma UnmarshalJSON_wire request cmd :
  protocol.UnmarshalJSON request = Some cmd → command_wire cmd.
Proof.
  unfold protocol.UnmarshalJSON, command_wire.
  destruct (protocol.decodeRaw request) as [[ty raw]|]; [| done].
  cbn [mbind option_bind fst snd].
  repeat (destruct (ty =? _)%Z;
          [intros (p & Hp & [= <-])%bind_Some; simpl;
           apply bind_Some in Hp as (j & _ & Hj);
           try done; destruct j; try done; simpl in Hj |]).
  - injection Hj as <-. apply map_Forall_empty.
  - apply bind_Some in Hj as (? & _ & (values & Hv & [= <-])%bind_Some).
    simpl. by eapply decodeMap_json_value.
  - injection Hj as <-. apply map_Forall_empty.
  - apply bind_Some in Hj
      as (? & _ & (values & Hv & (? & _ & [= <-])%bind_Some)%bind_Some).
    simpl. by eapply decodeMap_json_value.
  - by intros [= <-].
Qed.

Lemma convertColumns_range cols columns :
  server.convertColumns cols = inr columns →
  Forall (λ col, (minInt ≤ db.Column_Type col ≤ maxInt)%Z) columns.
Proof.
  revert columns. induction cols as [|col cols IH]; intros columns; simpl.
  - intros [= <-]. constructor.
  - repeat case_bool_decide; try done;
      destruct (server.convertColumns cols); try done;
      intros [= <-]; (constructor; [by vm_compute | by apply IH]).
Qed.

Lemma Insert_wire values t :
  map_Forall (λ _ v, json_value v = true) values →
  table_wire t →
  db.Table_Name (db.Insert values t).1 = db.Table_Name t ∧
  table_wire (db.Insert values t).1.
Proof.
  intros Hv [Hcols Hrows]. unfold db.Insert.
  destruct (db.Insert_loop (db.Columns t) values ∅) as [|row] eqn:E; [done |].
  simpl. split; [done |]. split; [done |]. simpl.
  apply Forall_app. split; [done |]. constructor; [| done].
  rewrite (Insert_loop_row _ _ _ E).
  intros k v [Hk _]%map_lookup_filter_Some. by apply (Hv k).
Qed.

Lemma Update_wire condition values t r :
  map_Forall (λ _ v, json_value v = true) values →
  table_wire t →
  db.Update condition values t = Some r →
  db.Table_Name r.1 = db.Table_Name t ∧ table_wire r.1.
Proof.
  intros Hv [Hcols Hrows]. unfold db.Update.
  destruct (db.Update_validate (db.Columns t) values); [by intros [= <-] |].
  intros (u & Hu & Hr)%bind_Some.
  assert (Forall (map_Forall (λ _ v, json_value v = true)) u.1) as Hrows'.
  { apply Update_loop_rows in Hu. revert Hrows. clear -Hu Hv.
    induction Hu as [|row row' rows rows' [-> | ->] _ IH];
      intros Hrows; [done | |];
      apply Forall_cons in Hrows as [? ?]; constructor; auto.
    by apply map_Forall_union_2. }
  by destruct u.2; injection Hr as <-.
Qed.

Lemma Delete_wire condition t r :
  table_wire t →
  db.Delete condition t = Some r →
  db.Table_Name r.1 = db.Table_Name t ∧ table_wire r.1.
Proof.
  intros [Hcols Hrows]. unfold db.Delete.
  intros (newRows & Hd & Hr)%bind_Some.
  assert (Forall (map_Forall (λ _ v, json_value v = true)) newRows)
    by (by eapply Delete_loop_Forall).
  by case_match; injection Hr as <-.
Qed.

Lemma GetTable_wire name tables t :
  catalog_wire tables → db.GetTable name tables = inr t →
  db.Table_Name t = name ∧ table_wire t.
Proof.
  unfold db.GetTable. intros Hw. destruct (tables !! name) eqn:E; [| done].
  intros [= <-]. by apply (Hw name).
Qed.

Lemma catalog_wire_insert name t tables :
  catalog_wire tables → db.Table_Name t = name → table_wire t →
  catalog_wire (<[name := t]> tables).
Proof. intros. by apply map_Forall_insert_2. Qed.

Lemma handleCommand_wire cmd w r :
  command_wire cmd → catalog_wire (server.database w) →
  server.handleCommand cmd w = Some r → catalog_wire (server.database r.2).
Proof.
  unfold command_wire, server.handleCommand. intros Hcmd Hw. cbv zeta.
  repeat (destruct (protocol.Type_ cmd =? _)%Z); [.. | by intros [= <-]].
  - unfold server.handleCreateTable.
    destruct (protocol.Payload cmd) as [| | p | | | | |]; try by intros [= <-].
    destruct (server.convertColumns _) as [|columns] eqn:Hcols; [by intros [= <-] |].
    unfold db.CreateTable. destruct (server.database w !! _) eqn:E; [by intros [= <-] |].
    intros [= <-]. simpl. apply catalog_wire_insert; [done | done |].
    split; [by eapply convertColumns_range | constructor].
  - unfold server.handleInsert.
    destruct (protocol.Payload cmd) as [| | | p | | | |]; try by intros [= <-].
    destruct (db.GetTable _ _) as [|t] eqn:Ht; [by intros [= <-] |].
    destruct (GetTable_wire _ _ _ Hw Ht) as [Hn Ht'].
    destruct (Insert_wire _ t Hcmd Ht') as [Hn' Hi].
    destruct (db.Insert _ t) as [t' [err|]]; intros [= <-]; simpl in *;
      (apply catalog_wire_insert; [done | congruence | done]).
  - unfold server.handleSelect.
    destruct (protocol.Payload cmd) as [| | | | p | | |]; try by intros [= <-].
    destruct (db.GetTable _ _); [by intros [= <-] |].
    by intros (? & _ & [= <-])%bind_Some.
  - unfold server.handleUpdate.
    destruct (protocol.Payload cmd) as [| | | | | p | |]; try by intros [= <-].
    destruct (db.GetTable _ _) as [|t] eqn:Ht; [by intros [= <-] |].
    destruct (GetTable_wire _ _ _ Hw Ht) as [Hn Ht'].
    intros (u & Hu & Hr)%bind_Some.
    destruct (Update_wire _ _ _ _ Hcmd Ht' Hu) as [Hn' Hi].
    destruct u.2; injection Hr as <-; simpl;
      (apply catalog_wire_insert; [done | congruence | done]).
  - unfold server.handleDelete.
    destruct (protocol.Payload cmd) as [| | | | | | p |]; try by intros [= <-].
    destruct (db.GetTable _ _) as [|t] eqn:Ht; [by intros [= <-] |].
    destruct (GetTable_wire _ _ _ Hw Ht) as [Hn Ht'].
    intros (u & Hu & Hr)%bind_Some.
    destruct (Delete_wire _ _ _ Ht' Hu) as [Hn' Hi].
    destruct u.2.2; injection Hr as <-; simpl;
      (apply catalog_wire_insert; [done | congruence | done]).
  - unfold server.handleSaveToDisk.
    destruct (db.SaveToDisk _ _ _) as [fs2 [err|]]; by intros [= <-].
  - unfold server.handleLoadFromDisk.
    pose proof (LoadFromDisk_wire) as Hl.
    destruct (protocol.Payload cmd) as [| filename | | | | | |]; try by intros [= <-].
    + specialize (Hl server.DEFAULT_DB_FILE (server.disk w) _ Hw).
      destruct (db.LoadFromDisk _ _ _) as [tables [err|]]; by intros [= <-].
    + specialize (Hl filename (server.disk w) _ Hw).
      destruct (db.LoadFromDisk _ _ _) as [tables [err|]]; by intros [= <-].
  - unfold server.handleGetTableInfo.
    destruct (protocol.Payload cmd) as [| | | | | | | p]; try by intros [= <-].
    destruct (db.GetTableInfo _ _); by intros [= <-].
Qed.

(** Every catalog the server reaches is one of those the snapshot
    round trip is stated for. *)
Lemma reachable_catalog_wire w : reachable w → catalog_wire (server.database w).
Proof.
  induction 1 as [fs | request w r _ IH Hserve | w fs _ IH].
  - unfold startup. destruct (os.Stat _ fs); simpl.
    + apply LoadFromDisk_wire. apply map_Forall_empty.
    + apply map_Forall_empty.
  - unfold server.serve in Hserve.
    destruct (protocol.UnmarshalJSON request) as [cmd|] eqn:Hcmd.
    + apply bind_Some in Hserve as (r' & Hr' & [= <-]). simpl.
      eapply handleCommand_wire; [| exact IH | exact Hr'].
      by eapply UnmarshalJSON_wire.
    + by injection Hserve as <-.
  - done.
Qed.

End reachable_facts.

(** ** The claims *)

Section claims.

Lemma filter_length_split {A} (P : A → Prop) `{!∀ x, Decision (P x)} (l : list A) :
  length l = (length (filter P l) + length (filter (λ x, ¬ P x) l))%nat.
Proof.
  induction l as [|x l IH]; [done |]. rewrite !filter_cons.
  destruct (decide (P x)).
  - rewrite decide_False by tauto. simpl. lia.
  - rewrite decide_True by done. simpl. lia.
Qed.

Lemma Table_eta (t : db.Table) :
  db.mkTable (db.Table_Name t) (db.Columns t) (db.Rows t) = t.
Proof. by destruct t. Qed.

Lemma condition_holds conditions rows :
  map_Forall (λ _ v, comparable v = true) conditions →
  Forall (λ row, db.holds (Some (server.condition conditions)) row
                 = Some (bool_decide (row_matches conditions row))) rows.
Proof.
  intros Hc. apply Forall_forall. intros row _. simpl. by apply condition_spec.
Qed.

(** The part of C2 that holds: a value of the wrong kind for a declared
    column stops [Update] before any row is touched. *)
Lemma Update_mismatch_keeps_rows condition values t col v :
  col ∈ db.Columns t → values !! db.Column_Name col = Some v →
  kind_matches col v = false →
  ∃ err, db.Update condition values t = Some (t, Some err) ∧ is_TypeMismatch (Some err).
Proof.
  intros Hc Hv Hk. unfold db.Update.
  destruct (Update_validate_mismatch _ _ _ _ Hc Hv Hk) as [err Herr]. rewrite Herr.
  exists err. split; [done |].
  apply Update_validate_Some in Herr as (? & ? & ? & _ & _ & _ & ->). done.
Qed.

(** Every Load command that [UnmarshalJSON] decodes has a nil payload. *)
Lemma UnmarshalJSON_Load_payload request cmd :
  protocol.UnmarshalJSON request = Some cmd →
  protocol.Type_ cmd = protocol.LoadFromDisk →
  protocol.Payload cmd = protocol.PNil.
Proof.
  unfold protocol.UnmarshalJSON.
  destruct (protocol.decodeRaw request) as [[ty raw]|]; [| done].
  cbn [mbind option_bind fst snd].
  repeat (destruct (ty =? _)%Z eqn:Heq;
          [apply Z.eqb_eq in Heq; intros (? & ? & [= <-])%bind_Some; simpl;
           intros ->; discriminate Heq | clear Heq]).
  by intros [= <-].
Qed.

(** *** The scenarios of the specification *)

Example scenario_insert_select :
  db.Insert alice no_users = (users, None) ∧
  db.Select (Some (server.condition ∅)) users = Some [alice] ∧
  db.Select (Some (server.condition (by_id two))) users = Some [].
Proof. repeat split; vm_compute; reflexivity. Qed.

Example scenario_update :
  db.Update (Some (server.condition (by_id one))) rename_bob users
  = Some (db.mkTable "users" users_columns
            [{["id" := one; "name" := VString "Bob"]}], None).
Proof. vm_compute. reflexivity. Qed.

Example scenario_delete :
  db.Delete (Some (server.condition (by_id one))) users = Some (no_users, (1%Z, None)) ∧
  db.RowCount no_users = 0%Z ∧
  db.Delete (Some (server.condition (by_id one))) no_users
  = Some (no_users, (0%Z, Some db.ErrNoMatch)).
Proof. repeat split; vm_compute; reflexivity. Qed.

Example scenario_duplicate_table :
  db.CreateTable "users" users_columns {["users" := users]}
  = ({["users" := users]}, Some (db.ErrTableExists "users")).
Proof. vm_compute. reflexivity. Qed.

(** *** C1: the invariant of the rows *)

(** C1, as stated, fails: [LoadFromDisk] takes the tables of a snapshot
    as they are, so a table loaded from a snapshot whose row lacks the
    declared column is a table state the operations build, and its row
    does not have the column's name as key. *)
Lemma loaded_table_breaks_invariant :
  built bare_users ∧ ¬ table_inv bare_users.
Proof.
  split.
  - apply (built_load "database.json" bare_disk ∅ {["users" := bare_users]} "users").
    + vm_compute. reflexivity.
    + vm_compute. reflexivity.
  - intros Hinv. apply Forall_cons in Hinv as [[Hdom _] _].
    assert (Hin : "id" ∈ column_names (db.Columns bare_users)).
    { apply elem_of_column_names. eexists. split; [by left | done]. }
    rewrite <- Hdom in Hin. by rewrite dom_empty_L in Hin.
Qed.

(** C1, amended: every table state built by [CreateTable], or loaded by
    [LoadFromDisk] from a snapshot whose rows are already in order, and
    then by any sequence of [Insert], [Delete] and [Update] with values
    for declared columns only, has rows whose key set is exactly the set
    of column names and whose values have the kind the column
    declares. *)
Theorem checked_tables_keep_invariant t :
  built_checked t → table_inv t.
Proof.
  induction 1 as [name columns tables tables' t Hc Ht
                 | ? ? ? ? ? t _ _ Hinv
                 | values t _ IH
                 | condition values t r _ IH Hdom Hu
                 | condition t r _ IH Hd].
  - rewrite (CreateTable_new _ _ _ _ _ Hc Ht). constructor.
  - done.
  - by apply Insert_inv.
  - by eapply Update_inv.
  - by eapply Delete_inv.
Qed.

Lemma checked_tables_keep_invariant_witness :
  table_inv (db.mkTable "users" users_columns [rename_bob ∪ alice]).
Proof.
  apply checked_tables_keep_invariant.
  assert (Hno : built_checked no_users).
  { apply (checked_create "users" users_columns ∅ {["users" := no_users]}).
    - vm_compute. reflexivity.
    - vm_compute. reflexivity. }
  apply (checked_insert alice) in Hno.
  apply (checked_update (Some (server.condition (by_id one))) rename_bob _
           (db.mkTable "users" users_columns [rename_bob ∪ alice], None)) in Hno.
  - exact Hno.
  - apply (bool_decide_unpack _). vm_compute. reflexivity.
  - vm_compute. reflexivity.
Defined.

(** *** C2: Update and the columns it does not know *)

(** C2 fails on the code at a request with one valid field and one for
    a column that does not exist: [Update] returns no error and stores
    both, the unknown key included. *)
Theorem Update_stores_unknown_column :
  db.Update (Some (server.condition ∅)) rename_bogus users
  = Some (db.mkTable "users" users_columns
            [{["id" := one; "name" := VString "Bob"; "bogus" := one]}],
          None).
Proof. vm_compute. reflexivity. Qed.

(** *** C3: what Update returns *)

(** C3, as stated, fails: the response to an update of one matching row
    reports success and carries no count. *)
Lemma Update_response_has_no_count :
  fst <$> server.handleCommand
            (protocol.mkCommand protocol.Update
               (protocol.PUpdate (protocol.mkUpdatePayload "users" rename_bob (by_id one))))
            (world users)
  = Some (protocol.mkResponse true None "").
Proof. vm_compute. reflexivity. Qed.

(** C3, amended: for every [Update] whose validation succeeds, with a
    condition whose values can be compared: if no row matches, it fails
    with "no matching records found" and the table is as before;
    otherwise it returns no error, the matching rows have taken the
    given values and the others are as before; no count is returned, and
    the handler's response carries no data. *)
Theorem Update_matches_or_not_found conditions values t :
  map_Forall (λ _ v, comparable v = true) conditions →
  db.Update_validate (db.Columns t) values = None →
  let matched := filter (row_matches conditions) (db.Rows t) in
  (matched = [] →
   db.Update (Some (server.condition conditions)) values t
   = Some (t, Some db.ErrNoMatch)) ∧
  (matched ≠ [] →
   db.Update (Some (server.condition conditions)) values t
   = Some (db.mkTable (db.Table_Name t) (db.Columns t)
             (map (λ row, if decide (row_matches conditions row)
                          then values ∪ row else row) (db.Rows t)),
           None)) ∧
  (∀ name w r,
     server.handleUpdate
       (protocol.PUpdate (protocol.mkUpdatePayload name values conditions)) w = Some r →
     protocol.Data r.1 = None).
Proof.
  intros Hc Hval matched. unfold db.Update. rewrite Hval.
  rewrite (Update_loop_spec _ (row_matches conditions)) by by apply condition_holds.
  cbn [mbind option_bind fst snd orb]. split; [| split].
  - intros Hnone. rewrite bool_decide_eq_false_2.
    + assert (map (λ row, if decide (row_matches conditions row)
                            then values ∪ row else row) (db.Rows t) = db.Rows t) as ->.
      { rewrite <- (map_id (db.Rows t)) at 2. apply map_ext_in. intros row Hin.
        case_decide as Hrow; [| done]. exfalso.
        assert (row ∈ matched) as Hm.
        { apply list_elem_of_filter. split; [done |]. by apply list_elem_of_In. }
        rewrite Hnone in Hm. by apply elem_of_nil in Hm. }
      by rewrite Table_eta.
    + intros (row & Hin & Hrow)%Exists_exists.
      assert (row ∈ matched) as Hm by (by apply list_elem_of_filter).
      rewrite Hnone in Hm. by apply elem_of_nil in Hm.
  - intros Hsome. rewrite bool_decide_eq_true_2; [done |].
    destruct matched as [|row rest] eqn:E; [done |].
    assert (row ∈ filter (row_matches conditions) (db.Rows t)) as Hm.
    { unfold matched in E. rewrite E. by left. }
    apply list_elem_of_filter in Hm as [? ?]. apply Exists_exists. eauto.
  - intros name w r. simpl.
    destruct (db.GetTable name (server.database w)); [by intros [= <-] |].
    intros (u & _ & Hr)%bind_Some. by destruct u.2; injection Hr as <-.
Qed.

Lemma Update_matches_or_not_found_witness :
  db.Update (Some (server.condition (by_id two))) rename_bob users
  = Some (users, Some db.ErrNoMatch).
Proof.
  apply (Update_matches_or_not_found (by_id two) rename_bob users).
  - apply (bool_decide_unpack _). vm_compute. reflexivity.
  - vm_compute. reflexivity.
  - vm_compute. reflexivity.
Defined.

(** *** C4: Insert *)

(** C4, as stated, fails: with a text for [id] and nothing for [name],
    a declared column is absent from the input and yet the error is
    not a missing column; it is the type mismatch of [id], the first
    declared column with something wrong. *)
Lemma Insert_reports_first_defect_only :
  (∃ col, col ∈ db.Columns no_users ∧ text_id !! db.Column_Name col = None) ∧
  (db.Insert text_id no_users).2
  = Some (db.ErrColumn "id" (db.ErrExpectedInt "string")) ∧
  ¬ is_MissingColumn (db.Insert text_id no_users).2.
Proof.
  split; [| split].
  - exists (db.mkColumn "name" db.TypeString). split; [by right; left |].
    vm_compute. reflexivity.
  - vm_compute. reflexivity.
  - vm_compute. tauto.
Qed.

(** C4, amended: [Insert] succeeds iff every declared column has a
    value of its declared kind in the input; otherwise it fails, leaves
    the table as it is, and reports the first declared column, in the
    order of declaration, that is absent (a missing column) or has a
    value of another kind (a type mismatch; a float that is not whole
    in an Integer column is one).  On success it appends exactly one
    row, the input restricted to the declared columns. *)
Theorem Insert_first_defect values t :
  (∀ k v, values !! k = Some v → value_valid v = true) →
  (first_defect (db.Columns t) values = None ↔
   ∀ col, col ∈ db.Columns t →
     ∃ v, values !! db.Column_Name col = Some v ∧ kind_matches col v = true) ∧
  match first_defect (db.Columns t) values with
  | None =>
      db.Insert values t
      = (db.mkTable (db.Table_Name t) (db.Columns t)
           (db.Rows t ++ [filter (λ kv, kv.1 ∈ column_names (db.Columns t)) values]),
         None)
  | Some (col, Missing) =>
      db.Insert values t = (t, Some (db.ErrMissingValue (db.Column_Name col)))
  | Some (col, Mismatch) =>
      ∃ cause,
        db.Insert values t = (t, Some (db.ErrColumn (db.Column_Name col) cause))
  end ∧
  (∀ col m e,
     db.Column_Type col = db.TypeInt → whole m e = false →
     db.validateValueType col (VFloat (Finite m e)) = Some db.ErrGotFloat).
Proof.
  intros Hvalid. split; [apply first_defect_None | split].
  - pose proof (Insert_loop_first_defect (db.Columns t) values ∅ Hvalid) as H.
    unfold db.Insert. destruct (first_defect (db.Columns t) values) as [[col []]|].
    + by rewrite H.
    + destruct H as [cause ->]. by exists cause.
    + destruct H as [row Hrow]. rewrite Hrow.
      by rewrite (Insert_loop_row _ _ _ Hrow).
  - intros col m e Hty Hw. unfold db.validateValueType. rewrite Hty.
    change (db.TypeInt =? db.TypeInt)%Z with true. cbv iota.
    destruct (float_eqb (Finite m e) _) eqn:E; [| done].
    apply check_sound in E as [E _]. congruence.
Qed.

Lemma Insert_first_defect_witness :
  db.Insert alice no_users = (users, None).
Proof.
  assert (Hvalid : ∀ k v, alice !! k = Some v → value_valid v = true).
  { apply (bool_decide_unpack (map_Forall (λ _ v, value_valid v = true) alice)).
    vm_compute. reflexivity. }
  destruct (Insert_first_defect alice no_users Hvalid) as (_ & H & _).
  vm_compute in H. vm_compute. exact H.
Defined.

(** *** C5: the snapshot round trip *)



(** *** C6: a Load that fails *)

(** C6: a [LoadFromDisk] that fails leaves the catalog as it was, with
    an open error when the file is missing or unreadable and a decode
    error when its content is malformed; one that succeeds puts the
    tables of the file in its place, whatever the catalog was. *)
Theorem LoadFromDisk_failure_keeps_catalog filename fs tables :
  (∀ err, (db.LoadFromDisk filename fs tables).2 = Some err →
     (db.LoadFromDisk filename fs tables).1 = tables ∧
     ((err = db.ErrOpen filename ∧ os.Open filename fs = None) ∨
      (err = db.ErrDecode ∧ is_Some (os.Open filename fs)))) ∧
  ((db.LoadFromDisk filename fs tables).2 = None →
   ∀ tables2,
     db.LoadFromDisk filename fs tables2 = db.LoadFromDisk filename fs tables).
Proof.
  unfold db.LoadFromDisk.
  destruct (os.Open filename fs) as [[| j]|]; simpl.
  - split; [| done]. intros err [= <-]. eauto.
  - destruct (db.Decode j); simpl.
    + split; [done | done].
    + split; [| done]. intros err [= <-]. eauto.
  - split; [| done]. intros err [= <-]. eauto.
Qed.

Lemma LoadFromDisk_failure_keeps_catalog_witness :
  (db.LoadFromDisk "database.json" empty_disk {["users" := users]}).1
  = {["users" := users]}.
Proof.
  destruct (LoadFromDisk_failure_keeps_catalog "database.json" empty_disk
              {["users" := users]}) as [H _].
  apply (H (db.ErrOpen "database.json")). vm_compute. reflexivity.
Defined.

(** *** C7: Delete *)



(** A nil condition function, which no caller passes, makes [Delete]
    keep every row, where [Select] and [Update] take every row. *)
Lemma Delete_nil_condition t :
  db.Delete None t = Some (t, (0%Z, Some db.ErrNoMatch)).
Proof.
  unfold db.Delete.
  assert (H : ∀ rows newRows, db.Delete_loop None rows newRows = Some (newRows ++ rows)).
  { induction rows as [|row rows IH]; intros newRows; simpl.
    - by rewrite app_nil_r.
    - by rewrite IH, <- app_assoc. }
  rewrite H. simpl. by rewrite Z.sub_diag.
Qed.

(** *** C8: Select *)

(** C8: for every table whose rows are allocated and every condition
    that is absent or has values that can be compared, [Select] returns
    (it neither fails nor panics) newly made maps whose contents are
    exactly the rows the condition selects, in the table's order; the
    maps that were there are as before; the returned ones are new and
    distinct, so whatever is stored in one afterwards, the table's rows
    are as before.  An absent condition selects every row, and so does
    an empty one; the result may be empty. *)
Theorem Select_returns_matching_copies
    (conditions : option (gmap string Value)) (t : heap.Table)
    (σ : gmap positive (gmap string Value)) :
  Forall (λ l, l ∈ dom σ) (heap.Rows t) →
  (∀ c, conditions = Some c → map_Forall (λ _ v, comparable v = true) c) →
  (∃ result σ',
     heap.Select (server.condition <$> conditions) t σ = Some (result, σ') ∧
     heap.contents σ' result = filter (selects conditions) (heap.contents σ (heap.Rows t)) ∧
     db.Select (server.condition <$> conditions) (heap.view σ t)
     = Some (heap.contents σ' result) ∧
     σ ⊆ σ' ∧
     NoDup result ∧
     Forall (λ l, l ∉ dom σ) result ∧
     ∀ l m, l ∈ result →
       heap.contents (<[l := m]> σ') (heap.Rows t) = heap.contents σ (heap.Rows t)) ∧
  (∀ row, selects None row) ∧
  (∀ row, selects (Some ∅) row).
Proof.
  intros Hdom Hc. split; [| split; [done | intros row; apply map_Forall_empty]].
  assert (Hholds : ∀ row,
            db.holds (server.condition <$> conditions) row
            = Some (bool_decide (selects conditions row))).
  { intros row. destruct conditions as [c|]; simpl; [| done].
    by rewrite condition_spec by auto. }
  destruct (heap_Select_loop_spec (server.condition <$> conditions) (selects conditions)
              (heap.Rows t) [] σ Hdom)
    as (result & σ' & Hsel & Hsub & Hnew & Hnd & Hcont).
  { apply Forall_forall. intros l _. apply Hholds. }
  exists result, σ'. split; [exact Hsel |]. split; [exact Hcont |].
  split; [| split; [done | split; [done | split]]].
  - unfold db.Select. simpl.
    rewrite (Select_loop_spec _ (selects conditions)).
    + by rewrite Hcont.
    + apply Forall_forall. intros row _. apply Hholds.
  - eapply Forall_impl; [exact Hnew |]. by intros l [? _].
  - intros l m Hl. rewrite <- (contents_weaken σ σ') by done.
    unfold heap.contents. apply Forall_fmap_ext. apply Forall_forall. intros l' Hl'.
    unfold heap.deref. rewrite lookup_insert_ne; [done |]. intros ->.
    rewrite Forall_forall in Hnew, Hdom. destruct (Hnew l' Hl) as [Hfresh _].
    apply Hfresh. by apply Hdom.
Qed.

Lemma Select_returns_matching_copies_witness :
  ∃ result σ',
    heap.Select (Some (server.condition (by_id one))) users_ref users_store
    = Some (result, σ') ∧
    heap.contents σ' result = [alice].
Proof.
  destruct (Select_returns_matching_copies (Some (by_id one)) users_ref users_store)
    as [(result & σ' & Hsel & Hcont & _) _].
  - apply Forall_singleton. apply (bool_decide_unpack _). vm_compute. reflexivity.
  - intros c [= <-]. apply (bool_decide_unpack _). vm_compute. reflexivity.
  - exists result, σ'. split; [exact Hsel |]. rewrite Hcont. vm_compute. reflexivity.
Defined.

(** *** C9: the path of a Load request *)

(** C9 fails on the code: [UnmarshalJSON] has no case for Load, so the
    string payload of a Load request is dropped; the decoded command
    has a nil payload and the load reads the default path, although a
    snapshot lies at the path the request names and [handleLoadFromDisk]
    would read it, had it been given the string. *)
Theorem Load_request_path_is_dropped :
  protocol.UnmarshalJSON load_other
  = Some (protocol.mkCommand protocol.LoadFromDisk protocol.PNil) ∧
  server.serve load_other (server.mkWorld ∅ two_disk)
  = Some (Some (protocol.mkResponse true None ""),
          server.mkWorld {["default" := db.mkTable "default" [] []]} two_disk) ∧
  server.handleLoadFromDisk (protocol.PString "other.json") (server.mkWorld ∅ two_disk)
  = Some (protocol.mkResponse true None "",
          server.mkWorld {["other" := db.mkTable "other" [] []]} two_disk).
Proof. repeat split; vm_compute; reflexivity. Qed.

(** *** C10: a command of no known type *)

(** C10: a command whose type is none of the eight is answered with
    [success: false], no data and the error "unknown command", and the
    catalog and the files are as before. *)
Theorem unknown_command cmd w :
  (protocol.Type_ cmd < 0 ∨ 7 < protocol.Type_ cmd)%Z →
  server.handleCommand cmd w
  = Some (protocol.mkResponse false None "unknown command", w).
Proof.
  intros Hty. unfold server.handleCommand. cbv zeta.
  repeat (destruct (protocol.Type_ cmd =? _)%Z eqn:E;
          [apply Z.eqb_eq in E; rewrite E in Hty;
           destruct Hty as [H | H]; vm_compute in H; discriminate H
          | clear E]).
  reflexivity.
Qed.

Lemma unknown_command_witness :
  server.handleCommand (protocol.mkCommand 8%Z protocol.PNil) (world users)
  = Some (protocol.mkResponse false None "unknown command", world users).
Proof. apply unknown_command. right. simpl. lia. Defined.

End claims.

(** ** More about the loops, for any condition function *)

Section loop_facts.

Lemma iface_eq_comparable_l a b :
  comparable a = true → is_Some (iface_eq a b).
Proof. destruct a, b; simpl; try done; eauto. Qed.

Lemma iface_eq_nil v : iface_eq VNil v = Some true → v = VNil.
Proof. by destruct v. Qed.

(** A value that passed [validateValueType] equals itself, and [==]
    compares it without a panic. *)
Lemma validated_scalar col v :
  db.validateValueType col v = None →
  comparable v = true ∧ iface_eq v v = Some true.
Proof.
  unfold db.validateValueType.
  destruct (db.Column_Type col =? db.TypeInt)%Z.
  - destruct v as [| | n |[m e| |]| | |]; try done; simpl.
    + by rewrite Z.eqb_refl.
    + by rewrite Z.eqb_refl.
  - destruct (db.Column_Type col =? db.TypeString)%Z; [| done].
    destruct v; try done. simpl. by rewrite bool_decide_eq_true_2.
Qed.

Lemma kind_matches_comparable col v :
  kind_matches col v = true → comparable v = true.
Proof.
  unfold kind_matches. destruct v as [| | |[| |]| | |]; try done.
Qed.

Lemma row_ok_comparable cols row k :
  row_ok cols row → comparable (index row k) = true.
Proof.
  intros [Hdom Hall]. unfold index. destruct (row !! k) as [v|] eqn:Hv; [| done].
  simpl. assert (Hk : k ∈ column_names cols).
  { rewrite <- Hdom. apply elem_of_dom. eauto. }
  apply elem_of_column_names in Hk as (col & Hc & <-).
  destruct (Hall col Hc) as (v' & Hv' & Hk). rewrite Hv in Hv'. injection Hv' as <-.
  by eapply kind_matches_comparable.
Qed.

Lemma matches_no_panic conditions row :
  (∀ k, comparable (index row k) = true) → is_Some (server.matches conditions row).
Proof.
  intros Hrow. induction conditions as [|kv rest IH]; simpl; [eauto |].
  destruct (iface_eq_comparable_l (index row kv.1) kv.2 (Hrow _)) as [b ->].
  simpl. destruct b; eauto.
Qed.

Lemma Select_loop_no_panic condition rows result :
  Forall (λ row, is_Some (db.holds condition row)) rows →
  is_Some (db.Select_loop condition rows result).
Proof.
  intros Hall. revert result.
  induction Hall as [|row rows [b Hb] _ IH]; intros result; simpl; [eauto |].
  rewrite Hb. simpl. apply IH.
Qed.

Lemma Update_loop_no_panic condition values rows updated :
  Forall (λ row, is_Some (db.holds condition row)) rows →
  is_Some (db.Update_loop condition values rows updated).
Proof.
  intros Hall. revert updated.
  induction Hall as [|row rows [b Hb] _ IH]; intros updated; simpl; [eauto |].
  rewrite Hb. simpl. destruct (IH (if b then true else updated)) as [r ->].
  simpl. eauto.
Qed.

Lemma Delete_loop_no_panic condition rows newRows :
  Forall (λ row, is_Some (db.holds condition row)) rows →
  is_Some (db.Delete_loop condition rows newRows).
Proof.
  intros Hall. revert newRows.
  induction Hall as [|row rows [b Hb] _ IH]; intros newRows; simpl; [eauto |].
  assert (is_Some (db.holds_not condition row)) as [keep ->].
  { destruct condition; simpl in *; [rewrite Hb |]; eauto. }
  simpl. apply IH.
Qed.

(** When [updated] is still false after the loop of [Update], no row
    has been written. *)
Lemma Update_loop_untouched condition values rows updated r :
  db.Update_loop condition values rows updated = Some r →
  r.2 = false → r.1 = rows ∧ updated = false.
Proof.
  revert updated r. induction rows as [|row rows IH]; intros updated r; simpl.
  - by intros [= <-].
  - destruct (db.holds condition row) as [hit|]; [| done]. simpl.
    destruct (db.Update_loop condition values rows _) as [r'|] eqn:E; [| done].
    simpl. intros [= <-] Hr. simpl in *.
    destruct (IH _ _ E Hr) as [-> Hu]. by destruct hit.
Qed.

Lemma Update_loop_length condition values rows updated r :
  db.Update_loop condition values rows updated = Some r →
  length r.1 = length rows.
Proof.
  intros H%Update_loop_rows. symmetry. by eapply Forall2_length.
Qed.

Lemma filter_none {A} (P : A → Prop) `{!∀ x, Decision (P x)} (l : list A) :
  length (filter (λ x, ¬ P x) l) = length l → filter P l = [].
Proof.
  intros Hlen. pose proof (filter_length_split P l) as Hsplit.
  apply length_zero_iff_nil. lia.
Qed.

Lemma filter_filter_not {A} (P : A → Prop) `{!∀ x, Decision (P x)} (l : list A) :
  filter P (filter (λ x, ¬ P x) l) = [].
Proof.
  induction l as [|x l IH]; [done |]. rewrite filter_cons.
  destruct (decide (¬ P x)); [| done]. rewrite filter_cons.
  by rewrite decide_False.
Qed.

Lemma filter_all {A} (P : A → Prop) `{!∀ x, Decision (P x)} (l : list A) :
  Forall P l → filter P l = l.
Proof.
  induction 1 as [|x l Hx _ IH]; [done |]. rewrite filter_cons.
  by rewrite decide_True, IH.
Qed.

Lemma filter_nil_not {A} (P : A → Prop) `{!∀ x, Decision (P x)} (l : list A) :
  filter P l = [] → filter (λ x, ¬ P x) l = l.
Proof.
  intros Hnil. apply filter_all. apply Forall_forall. intros x Hx HP.
  assert (x ∈ filter P l) as Hin by (by apply list_elem_of_filter).
  rewrite Hnil in Hin. by apply elem_of_nil in Hin.
Qed.

(** The round trip of C5, as a lemma for the properties of the
    handlers. *)
Lemma SaveToDisk_roundtrip filename tables fs :
  catalog_wire tables →
  filename ∉ os.denied fs →
  ∃ j, db.Encode (to_data <$> tables) = Some j ∧
       db.Decode j = Some (to_data <$> tables) ∧
       db.SaveToDisk filename tables fs = (os.write filename (os.Json j) fs, None) ∧
       ∀ tables0,
         db.LoadFromDisk filename (os.write filename (os.Json j) fs) tables0
         = (tables, None).
Proof.
  intros Hwire Hfile. unfold db.SaveToDisk, os.Create.
  rewrite decide_False by done.
  destruct (Encode_Decode tables) as (j & Hj & Hd).
  { intros k t Ht. by destruct (Hwire k t Ht). }
  exists j. split; [done |]. split; [done |].
  change (db.Encode _) with (db.Encode (to_data <$> tables)). rewrite Hj.
  split.
  - f_equal. unfold os.write. simpl. by rewrite insert_insert_eq.
  - intros tables0. unfold db.LoadFromDisk. rewrite Open_write, Hd.
    rewrite LoadFromDisk_tables_to_data; [done |].
    intros k t Ht. by destruct (Hwire k t Ht).
Qed.

End loop_facts.

(** ** More about the rows as references *)

Section reference_facts.

Implicit Types σ : gmap positive (gmap string Value).

(** Whatever [Select] returns, the maps it made are new and the old
    ones are as before. *)
Lemma heap_Select_loop_fresh condition rows result σ res σ' :
  heap.Select_loop condition rows result σ = Some (res, σ') →
  σ ⊆ σ' ∧ ∃ new, res = result ++ new ∧ Forall (λ l, l ∉ dom σ) new.
Proof.
  revert result σ. induction rows as [|row rows IH]; intros result σ;
    cbn [heap.Select_loop]; cbv zeta.
  - intros [= <- <-]. split; [done |]. exists []. by rewrite app_nil_r.
  - destruct (db.holds condition (heap.deref σ row)) as [hit|]; [| done].
    cbn [mbind option_bind]. destruct hit.
    + destruct (Select_copy σ row) as [Hfresh ->].
      intros (Hsub & new & -> & Hnew)%IH.
      assert (Hσ : σ ⊆ <[fst (heap.make σ) := heap.deref (snd (heap.make σ)) row]> σ).
      { apply insert_subseteq. by apply not_elem_of_dom. }
      split; [by etrans |]. exists (fst (heap.make σ) :: new).
      rewrite <- app_assoc. split; [done |]. constructor; [done |].
      eapply Forall_impl; [exact Hnew |]. intros l Hl. cbv beta in Hl.
      rewrite dom_insert_L in Hl. set_solver.
    + apply IH.
Qed.

Lemma heap_Update_frame condition values rows updated σ r :
  NoDup rows → Forall (λ l, l ∈ dom σ) rows →
  heap.Update_loop condition values rows updated σ = Some r →
  dom r.1 = dom σ ∧ (∀ l, l ∉ rows → r.1 !! l = σ !! l) ∧
  db.Update_loop condition values (heap.contents σ rows) updated
  = Some (heap.contents r.1 rows, r.2).
Proof.
  intros Hnd Hdom Hr.
  pose proof (heap_Update_loop_spec condition values rows updated σ Hnd Hdom) as H.
  destruct (db.Update_loop condition values (heap.contents σ rows) updated) as [u|].
  - destruct H as (σ' & Hσ' & Hcont & Hd & Hsame). rewrite Hσ' in Hr.
    injection Hr as <-. simpl. rewrite Hcont. by destruct u.
  - congruence.
Qed.

Lemma Update_loop_frame_aux condition values t σ r :
  heap.wf σ t →
  heap.Update condition values t σ = Some r →
  ∀ l, l ∉ heap.Rows t → r.1 !! l = σ !! l.
Proof.
  intros [Hnd Hdom]. unfold heap.Update.
  destruct (db.Update_validate (heap.Columns t) values) as [err|].
  - by intros [= <-].
  - intros (u & Hu & Hr)%bind_Some.
    destruct (heap_Update_frame _ _ _ _ _ _ Hnd Hdom Hu) as (_ & Hsame & _).
    by destruct u.2; injection Hr as <-.
Qed.

End reference_facts.

(** ** More about the handlers *)

Section handler_facts.

Lemma convertColumns_known cols :
  Forall known_type cols → server.convertColumns cols = inr (map declared cols).
Proof.
  induction 1 as [|col cols [Hc | Hc] _ IH]; cbn [server.convertColumns map];
    [done | |]; rewrite IH.
  - rewrite bool_decide_eq_true_2 by done. unfold declared.
    by rewrite bool_decide_eq_true_2.
  - rewrite bool_decide_eq_false_2 by (by rewrite Hc).
    rewrite bool_decide_eq_true_2 by done. unfold declared.
    by rewrite bool_decide_eq_false_2 by (by rewrite Hc).
Qed.

Lemma convertColumns_unknown pre col post :
  Forall known_type pre → ¬ known_type col →
  server.convertColumns (pre ++ col :: post) = inl col.2.
Proof.
  intros Hpre Hcol.
  induction Hpre as [|c pre [Hc | Hc] _ IH]; cbn [server.convertColumns app].
  - unfold known_type in Hcol. by rewrite !bool_decide_eq_false_2 by tauto.
  - rewrite bool_decide_eq_true_2 by done. by rewrite IH.
  - rewrite bool_decide_eq_false_2 by (by rewrite Hc).
    rewrite bool_decide_eq_true_2 by done. by rewrite IH.
Qed.

Lemma World_eta w : server.mkWorld (server.database w) (server.disk w) = w.
Proof. by destruct w. Qed.

Lemma GetTable_lookup name tables t :
  db.GetTable name tables = inr t → tables !! name = Some t.
Proof. unfold db.GetTable. destruct (tables !! name); [by intros [= <-] | done]. Qed.

Lemma Insert_error values t err :
  (db.Insert values t).2 = Some err → (db.Insert values t).1 = t.
Proof. unfold db.Insert. by destruct (db.Insert_loop _ _ _). Qed.

Lemma Update_error condition values t r err :
  db.Update condition values t = Some r → r.2 = Some err → r.1 = t.
Proof.
  unfold db.Update. destruct (db.Update_validate _ _); [by intros [= <-] |].
  intros (u & Hu & Hr)%bind_Some.
  destruct u.2 eqn:Hflag; injection Hr as <-; [done |]. intros _. simpl.
  destruct (Update_loop_untouched _ _ _ _ _ Hu Hflag) as [-> _]. by destruct t.
Qed.

Lemma Delete_error condition t r err :
  db.Delete condition t = Some r → r.2.2 = Some err → r.1 = t.
Proof.
  unfold db.Delete. intros (newRows & _ & Hr)%bind_Some.
  by destruct (_ =? 0)%Z; injection Hr as <-.
Qed.

Lemma autoSave_loads w :
  catalog_wire (server.database w) →
  server.DEFAULT_DB_FILE ∉ os.denied (server.disk w) →
  ∀ tables0,
    db.LoadFromDisk server.DEFAULT_DB_FILE (server.disk (server.autoSave w)) tables0
    = (server.database w, None).
Proof.
  intros Hwire Hfile tables0. unfold server.autoSave. simpl.
  destruct (SaveToDisk_roundtrip _ _ _ Hwire Hfile) as (j & _ & _ & -> & Hload).
  apply Hload.
Qed.

Lemma Rename_denied oldpath newpath fs fs' :
  os.Rename oldpath newpath fs = Some fs' → os.denied fs' = os.denied fs.
Proof.
  unfold os.Rename. destruct (os.files fs !! oldpath); [| done].
  case_decide; [done |]. by intros [= <-].
Qed.

Lemma LoadFromDisk_of_Open filename fs j tables tables0 :
  os.Open filename fs = Some (os.Json j) →
  db.Decode j = Some (to_data <$> tables) →
  catalog_wire tables →
  db.LoadFromDisk filename fs tables0 = (tables, None).
Proof.
  intros Ho Hd Hwire. unfold db.LoadFromDisk. rewrite Ho, Hd.
  rewrite LoadFromDisk_tables_to_data; [done |].
  intros k t Ht. by destruct (Hwire k t Ht).
Qed.

Lemma LoadFromDisk_error filename fs tables err :
  (db.LoadFromDisk filename fs tables).2 = Some err →
  (db.LoadFromDisk filename fs tables).1 = tables.
Proof.
  unfold db.LoadFromDisk. destruct (os.Open filename fs) as [[| j]|]; try done.
  by destruct (db.Decode j).
Qed.

Lemma LoadFromDisk_tables_keyed data :
  map_Forall (λ name t, db.Table_Name t = name) (db.LoadFromDisk_tables data).
Proof.
  unfold db.LoadFromDisk_tables.
  apply (map_fold_weak_ind
           (λ r (m : gmap string db.TableData),
              map_Forall (λ name t, db.Table_Name t = name) r)).
  - apply map_Forall_empty.
  - intros k td m r _ IH. by apply map_Forall_insert_2.
Qed.

Lemma backup_is_another_file : backupFile ≠ server.DEFAULT_DB_FILE.
Proof. by vm_compute. Qed.

End handler_facts.

(** ** Further properties of the code *)

Section further.

(** *** The table engine *)

(** X1: [validateValueType] accepts, in a column of type int, any Go
    [int] and the [float64]s that are whole numbers within the range of
    [int]; in a column of type string, exactly the strings; in a column
    of any other type, nothing. *)
Theorem validateValueType_accepts col v :
  value_valid v = true →
  (db.Column_Type col = db.TypeInt →
   (db.validateValueType col v = None ↔
    (∃ n, v = VInt n) ∨
    (∃ m e, v = VFloat (Finite m e) ∧ whole m e = true ∧ fits_int m e = true))) ∧
  (db.Column_Type col = db.TypeString →
   (db.validateValueType col v = None ↔ ∃ s, v = VString s)) ∧
  (db.Column_Type col ≠ db.TypeInt → db.Column_Type col ≠ db.TypeString →
   db.validateValueType col v ≠ None).
Proof.
  intros Hvalid. unfold db.validateValueType. split; [| split].
  - intros ->. change (db.TypeInt =? db.TypeInt)%Z with true. cbv iota.
    destruct v as [| | n |[m e| |]| | |];
      try (split; [done | by intros [[? [=]] | (? & ? & [=] & _)]]).
    + split; [eauto | done].
    + destruct (float_eqb (Finite m e) _) eqn:E.
      * apply check_sound in E as [Hw Hf]. split; [| done]. intros _. right. eauto.
      * split; [done |]. intros [[? [=]] | (m' & e' & [= <- <-] & Hw & Hf)].
        simpl in Hvalid. apply Z.leb_le in Hvalid.
        by rewrite check_complete in E.
  - intros ->. change (db.TypeString =? db.TypeInt)%Z with false.
    change (db.TypeString =? db.TypeString)%Z with true. cbv iota.
    destruct v; try (split; [done | by intros [? [=]]]).
    split; [eauto | done].
  - intros H1 H2. apply Z.eqb_neq in H1, H2. by rewrite H1, H2.
Qed.

Lemma validateValueType_accepts_witness :
  db.validateValueType (db.mkColumn "id" db.TypeInt) one = None.
Proof.
  destruct (validateValueType_accepts (db.mkColumn "id" db.TypeInt) one) as [H _].
  - reflexivity.
  - apply H; [reflexivity |]. right. exists 1%Z, 0%Z. by vm_compute.
Defined.

(** X2: [CreateTable] under a name that is taken fails and leaves the
    catalog as it is; under a free name it succeeds, [GetTable] then
    finds an empty table with the given columns under that name, and
    every other name is looked up as before. *)
Theorem CreateTable_then_GetTable name columns tables :
  (is_Some (tables !! name) →
   db.CreateTable name columns tables = (tables, Some (db.ErrTableExists name))) ∧
  (tables !! name = None →
   (db.CreateTable name columns tables).2 = None ∧
   db.GetTable name (db.CreateTable name columns tables).1
   = inr (db.mkTable name columns []) ∧
   ∀ other, other ≠ name →
     db.GetTable other (db.CreateTable name columns tables).1
     = db.GetTable other tables).
Proof.
  unfold db.CreateTable, db.GetTable. split.
  - by intros [t ->].
  - intros ->. simpl. rewrite lookup_insert_eq. repeat split.
    intros other Hne. by rewrite lookup_insert_ne.
Qed.

Lemma CreateTable_then_GetTable_witness :
  db.GetTable "users" (db.CreateTable "users" users_columns ∅).1 = inr no_users.
Proof.
  destruct (CreateTable_then_GetTable "users" users_columns ∅) as [_ H].
  apply H. reflexivity.
Defined.

(** X3: [GetTableInfo] fails exactly when [GetTable] does, with the
    same error; otherwise it names the table and lists its columns in
    their order, each with its name and with the type name ["int"] when
    its type is int and ["string"] for every other type. *)
Theorem GetTableInfo_describes name tables :
  match db.GetTable name tables with
  | inl err => db.GetTableInfo name tables = inl err
  | inr t =>
      ∃ info, db.GetTableInfo name tables = inr info ∧
        db.TableInfo_Name info = db.Table_Name t ∧
        map fst (db.TableInfo_Columns info) = map db.Column_Name (db.Columns t) ∧
        Forall2 (λ col c,
                   (db.Column_Type col = db.TypeInt → c.2 = "int") ∧
                   (db.Column_Type col ≠ db.TypeInt → c.2 = "string"))
                (db.Columns t) (db.TableInfo_Columns info)
  end.
Proof.
  unfold db.GetTable, db.GetTableInfo. destruct (tables !! name) as [t|]; [| done].
  eexists. split; [done |]. simpl. split; [done |]. split.
  - rewrite map_map. done.
  - induction (db.Columns t) as [|col cols IH]; constructor; [| done]. simpl.
    destruct (db.Column_Type col =? db.TypeInt)%Z eqn:E.
    + apply Z.eqb_eq in E. done.
    + apply Z.eqb_neq in E. done.
Qed.

(** X4: a row that [Insert] has stored is found again: [Select] with
    the stored row as condition does not panic and returns rows among
    which the stored one is. *)
Theorem Insert_then_Select values t :
  (db.Insert values t).2 = None →
  let row := filter (λ kv, kv.1 ∈ column_names (db.Columns t)) values in
  db.Rows (db.Insert values t).1 = db.Rows t ++ [row] ∧
  ∃ found, db.Select (Some (server.condition row)) (db.Insert values t).1 = Some found ∧
           row ∈ found.
Proof.
  unfold db.Insert.
  destruct (db.Insert_loop (db.Columns t) values ∅) as [err | row'] eqn:E; [done |].
  intros _. cbv zeta.
  set (row := filter (λ kv, kv.1 ∈ column_names (db.Columns t)) values).
  assert (row' = row) as -> by (by apply Insert_loop_row).
  split; [done |].
  destruct (Insert_loop_inr _ _ _ _ E) as [Hlook Hall].
  assert (Hrow : ∀ k v, row !! k = Some v →
                   comparable v = true ∧ iface_eq v v = Some true).
  { intros k v Hv. rewrite Hlook, lookup_empty in Hv. case_decide as Hk; [| done].
    apply elem_of_column_names in Hk as (col & Hc & <-).
    destruct (Hall col Hc) as (v' & Hv' & Hok). rewrite Hv in Hv'. injection Hv' as <-.
    by eapply validated_scalar. }
  unfold db.Select. cbn [db.Rows].
  rewrite (Select_loop_spec _ (row_matches row)).
  - eexists. split; [done |]. apply list_elem_of_filter. split.
    + intros k v Hv. unfold index. rewrite Hv. simpl. by apply (Hrow k).
    + apply elem_of_app. right. by left.
  - apply condition_holds. intros k v Hv. by apply (Hrow k).
Qed.

Lemma Insert_then_Select_witness :
  ∃ found, db.Select (Some (server.condition alice)) users = Some found ∧ alice ∈ found.
Proof.
  destruct (Insert_then_Select alice no_users) as [_ H]; [by vm_compute |].
  vm_compute in H. vm_compute. exact H.
Defined.

(** X5: whatever the condition function, [Update] keeps the name, the
    columns and the number of rows of the table, and whenever it
    returns an error the table is exactly as it was. *)
Theorem Update_error_changes_nothing condition values t r :
  db.Update condition values t = Some r →
  db.Table_Name r.1 = db.Table_Name t ∧
  db.Columns r.1 = db.Columns t ∧
  db.RowCount r.1 = db.RowCount t ∧
  (∀ err, r.2 = Some err → r.1 = t).
Proof.
  unfold db.Update, db.RowCount.
  destruct (db.Update_validate (db.Columns t) values); [by intros [= <-] |].
  intros (u & Hu & Hr)%bind_Some.
  pose proof (Update_loop_length _ _ _ _ _ Hu) as Hlen.
  destruct u.2 eqn:Hflag; injection Hr as <-; simpl; rewrite Hlen;
    repeat split; try done.
  intros err _. destruct (Update_loop_untouched _ _ _ _ _ Hu Hflag) as [-> _].
  by destruct t.
Qed.

Lemma Update_error_changes_nothing_witness :
  db.RowCount users = db.RowCount users ∧
  (db.mkTable "users" users_columns [alice]) = users.
Proof.
  destruct (Update_error_changes_nothing (Some (server.condition (by_id two)))
              rename_bob users (users, Some db.ErrNoMatch)) as (_ & _ & H1 & H2).
  - vm_compute. reflexivity.
  - split; [exact H1 |]. apply (H2 db.ErrNoMatch). reflexivity.
Defined.

(** X6: after a [Delete], successful or not, no row of the table
    matches the condition any more: [Select] with it returns nothing,
    and a second [Delete] fails with "no matching records found" and
    changes nothing. *)
Theorem Delete_then_nothing_matches conditions t r :
  map_Forall (λ _ v, comparable v = true) conditions →
  db.Delete (Some (server.condition conditions)) t = Some r →
  db.Select (Some (server.condition conditions)) r.1 = Some [] ∧
  db.Delete (Some (server.condition conditions)) r.1
  = Some (r.1, (0%Z, Some db.ErrNoMatch)).
Proof.
  intros Hc. unfold db.Delete at 1.
  rewrite (Delete_loop_spec _ (row_matches conditions)); [| by apply condition_holds | done].
  cbn [mbind option_bind app].
  set (kept := filter (λ row, ¬ row_matches conditions row) (db.Rows t)).
  assert (Hnone : filter (row_matches conditions) (db.Rows r.1) = [] →
            db.Select (Some (server.condition conditions)) r.1 = Some [] ∧
            db.Delete (Some (server.condition conditions)) r.1
            = Some (r.1, (0%Z, Some db.ErrNoMatch))).
  { intros Hnil. split.
    - unfold db.Select.
      rewrite (Select_loop_spec _ (row_matches conditions)) by by apply condition_holds.
      by rewrite Hnil.
    - unfold db.Delete.
      rewrite (Delete_loop_spec _ (row_matches conditions));
        [| by apply condition_holds | done].
      cbn [mbind option_bind app]. rewrite (filter_nil_not _ _ Hnil).
      by rewrite Z.sub_diag. }
  destruct (_ =? 0)%Z eqn:E; intros [= <-]; apply Hnone; cbn [fst db.Rows].
  - apply filter_none. apply Z.eqb_eq in E. fold kept. lia.
  - apply filter_filter_not.
Qed.

Lemma Delete_then_nothing_matches_witness :
  db.Select (Some (server.condition (by_id one))) no_users = Some [].
Proof.
  destruct (Delete_then_nothing_matches (by_id one) users (no_users, (1%Z, None)))
    as [H _].
  - apply (bool_decide_unpack _). vm_compute. reflexivity.
  - vm_compute. reflexivity.
  - exact H.
Defined.

(** X7: [Delete] with an empty condition removes every row and returns
    their number; on a table without rows it fails with "no matching
    records found". *)
Theorem Delete_without_condition t :
  db.Delete (Some (server.condition ∅)) t
  = if decide (db.Rows t = [])
    then Some (t, (0%Z, Some db.ErrNoMatch))
    else Some (db.mkTable (db.Table_Name t) (db.Columns t) [],
               (db.RowCount t, None)).
Proof.
  unfold db.Delete, db.RowCount.
  rewrite (Delete_loop_spec _ (row_matches ∅));
    [| apply condition_holds, map_Forall_empty | done].
  cbn [mbind option_bind app].
  assert (filter (λ row, ¬ row_matches ∅ row) (db.Rows t) = []) as ->.
  { apply length_zero_iff_nil.
    pose proof (filter_length_split (row_matches ∅) (db.Rows t)) as Hsplit.
    rewrite (filter_all (row_matches ∅)) in Hsplit; [lia |].
    apply Forall_forall. intros row _. apply map_Forall_empty. }
  simpl. rewrite Z.sub_0_r. case_decide as Hrows.
  - by rewrite Hrows.
  - destruct (db.Rows t); [done |]. done.
Qed.

(** X8: a table whose rows satisfy the invariant never makes [Select],
    [Update] or [Delete] panic, whatever values the condition holds. *)
Theorem invariant_rows_never_panic conditions values t :
  table_inv t →
  is_Some (db.Select (Some (server.condition conditions)) t) ∧
  is_Some (db.Update (Some (server.condition conditions)) values t) ∧
  is_Some (db.Delete (Some (server.condition conditions)) t).
Proof.
  intros Hinv.
  assert (Hrows : Forall (λ row, is_Some (db.holds (Some (server.condition conditions)) row))
                    (db.Rows t)).
  { eapply Forall_impl; [exact Hinv |]. intros row Hrow. simpl.
    apply matches_no_panic. intros k. by eapply row_ok_comparable. }
  split; [| split].
  - by apply Select_loop_no_panic.
  - unfold db.Update. destruct (db.Update_validate _ _); [eauto |].
    destruct (Update_loop_no_panic _ values _ false Hrows) as [r ->]. simpl.
    destruct r.2; eauto.
  - unfold db.Delete.
    destruct (Delete_loop_no_panic _ _ [] Hrows) as [r ->]. simpl.
    destruct (_ =? 0)%Z; eauto.
Qed.

Lemma invariant_rows_never_panic_witness :
  is_Some (db.Select (Some (server.condition {["id" := VSlice []]})) users).
Proof.
  destruct (invariant_rows_never_panic {["id" := VSlice []]} ∅ users) as [H _].
  - apply Forall_singleton. split.
    + apply (bool_decide_unpack _). vm_compute. reflexivity.
    + intros col [-> | [-> | Hc%elem_of_nil]%elem_of_cons]%elem_of_cons; [| | done].
      * exists one. split; vm_compute; reflexivity.
      * exists (VString "Alice"). split; vm_compute; reflexivity.
  - exact H.
Defined.

(** X9: the closure the handlers build from a condition whose values
    can be compared returns true exactly when, for every key of the
    condition, the row's value at the key, nil when the row has none,
    equals the condition's; so a condition on a key the row lacks
    fails unless it asks for nil. *)
Theorem condition_is_conjunction conditions row :
  map_Forall (λ _ v, comparable v = true) conditions →
  server.condition conditions row = Some (bool_decide (row_matches conditions row)) ∧
  (∀ k v, conditions !! k = Some v → row !! k = None → v ≠ VNil →
     server.condition conditions row = Some false).
Proof.
  intros Hc. pose proof (condition_spec conditions row Hc) as Hspec.
  split; [done |]. intros k v Hk Hrow Hv. rewrite Hspec. f_equal.
  apply bool_decide_eq_false_2. intros Hm. specialize (Hm k v Hk). simpl in Hm.
  unfold index in Hm. rewrite Hrow in Hm. simpl in Hm.
  by apply iface_eq_nil in Hm.
Qed.

Lemma condition_is_conjunction_witness :
  server.condition {["age" := one]} alice = Some false.
Proof.
  destruct (condition_is_conjunction {["age" := one]} alice) as [_ H].
  - apply (bool_decide_unpack _). vm_compute. reflexivity.
  - apply (H "age" one); [vm_compute; reflexivity | vm_compute; reflexivity | done].
Defined.

(** *** The rows as references *)

(** X10: on a table whose rows are distinct allocated maps, [Insert]
    changes no map that exists: on success it appends one reference to
    a newly made map, whose contents are what [Insert] on contents
    gives, and the rows of the table are again distinct allocated
    maps. *)
Theorem Insert_makes_a_new_map values t
    (σ : gmap positive (gmap string Value)) :
  heap.wf σ t →
  σ ⊆ (heap.Insert values t σ).1.2 ∧
  heap.wf (heap.Insert values t σ).1.2 (heap.Insert values t σ).1.1 ∧
  (heap.view (heap.Insert values t σ).1.2 (heap.Insert values t σ).1.1,
   (heap.Insert values t σ).2)
  = db.Insert values (heap.view σ t) ∧
  ((heap.Insert values t σ).2 = None →
   ∃ l, heap.Rows (heap.Insert values t σ).1.1 = heap.Rows t ++ [l] ∧ l ∉ dom σ).
Proof.
  intros Hwf. destruct (heap_Insert_view values t σ Hwf) as [Hview Hwf'].
  split; [| split; [done | split; [done |]]].
  - unfold heap.Insert. cbv zeta. unfold heap.make. cbn [fst snd].
    pose proof (is_fresh (dom σ)) as Hfresh.
    rewrite (heap_Insert_loop_spec _ _ _ _ ∅) by apply lookup_insert_eq.
    destruct (db.Insert_loop (heap.Columns t) values ∅); cbn [fst snd].
    + apply insert_subseteq. by apply not_elem_of_dom.
    + rewrite insert_insert_eq. apply insert_subseteq. by apply not_elem_of_dom.
  - unfold heap.Insert. cbv zeta. unfold heap.make. cbn [fst snd].
    destruct (heap.Insert_loop _ _ _ _); [done |]. intros _.
    exists (fresh (dom σ)). split; [done |]. apply is_fresh.
Qed.

Lemma Insert_makes_a_new_map_witness :
  heap.view (heap.Insert alice (heap.mkTable "users" users_columns []) ∅).1.2
            (heap.Insert alice (heap.mkTable "users" users_columns []) ∅).1.1
  = users.
Proof.
  destruct (Insert_makes_a_new_map alice (heap.mkTable "users" users_columns []) ∅)
    as (_ & _ & H & _).
  - split; constructor.
  - apply (f_equal fst) in H. simpl in H. rewrite H. vm_compute. reflexivity.
Defined.

(** X11: on a table whose rows are distinct allocated maps, [Update]
    writes into the maps of the table and nowhere else: it allocates
    nothing, every map that is not a row of the table is as before,
    and the rows afterwards hold what [Update] on contents gives. *)
Theorem Update_writes_own_rows_only condition values t
    (σ : gmap positive (gmap string Value)) r :
  heap.wf σ t →
  heap.Update condition values t σ = Some r →
  dom r.1 = dom σ ∧
  (∀ l, l ∉ heap.Rows t → r.1 !! l = σ !! l) ∧
  heap.wf r.1 t ∧
  db.Update condition values (heap.view σ t) = Some (heap.view r.1 t, r.2).
Proof.
  intros [Hnd Hdom]. unfold heap.Update, db.Update.
  cbn [heap.view db.Columns db.Rows].
  destruct (db.Update_validate (heap.Columns t) values) as [err|].
  - by intros [= <-].
  - intros (u & Hu & Hr)%bind_Some.
    destruct (heap_Update_frame _ _ _ _ _ _ Hnd Hdom Hu) as (Hd & Hsame & ->).
    cbn [mbind option_bind fst snd].
    assert (heap.wf u.1 t) by (split; [done | by rewrite Hd]).
    by destruct u.2; injection Hr as <-.
Qed.

Lemma Update_writes_own_rows_only_witness :
  db.Update (Some (server.condition (by_id one))) rename_bob
            (heap.view users_store users_ref)
  = Some (heap.view {[1%positive := rename_bob ∪ alice]} users_ref, None).
Proof.
  destruct (Update_writes_own_rows_only (Some (server.condition (by_id one)))
              rename_bob users_ref users_store
              ({[1%positive := rename_bob ∪ alice]}, None)) as (_ & _ & _ & H).
  - split; [apply NoDup_singleton |]. apply Forall_singleton.
    apply (bool_decide_unpack _). vm_compute. reflexivity.
  - vm_compute. reflexivity.
  - exact H.
Defined.

(** X12: the copies an earlier [Select] returned are not changed by a
    later [Update] of the table. *)
Theorem Update_leaves_selected_copies c1 c2 values t
    (σ : gmap positive (gmap string Value)) result σ1 r :
  heap.wf σ t →
  heap.Select c1 t σ = Some (result, σ1) →
  heap.Update c2 values t σ1 = Some r →
  heap.contents r.1 result = heap.contents σ1 result.
Proof.
  intros [Hnd Hdom] Hsel Hup.
  destruct (heap_Select_loop_fresh _ _ _ _ _ _ Hsel) as (Hsub & new & -> & Hnew).
  assert (Hwf1 : heap.wf σ1 t).
  { split; [done |]. eapply Forall_impl; [exact Hdom |]. intros l.
    by apply subseteq_dom in Hsub; set_solver. }
  pose proof (Update_loop_frame_aux c2 values t σ1 r Hwf1 Hup) as Hsame.
  unfold heap.contents. apply Forall_fmap_ext, Forall_forall. intros l Hl.
  unfold heap.deref. rewrite Hsame; [done |]. intros Hin.
  rewrite Forall_forall in Hnew, Hdom. apply (Hnew l Hl). by apply Hdom.
Qed.

Lemma Update_leaves_selected_copies_witness :
  heap.contents {[1%positive := rename_bob ∪ alice; 2%positive := alice]} [2%positive]
  = heap.contents {[1%positive := alice; 2%positive := alice]} [2%positive].
Proof.
  pose proof (Update_leaves_selected_copies
           (Some (server.condition (by_id one))) (Some (server.condition (by_id one)))
           rename_bob users_ref users_store [2%positive]
           {[1%positive := alice; 2%positive := alice]}
           ({[1%positive := rename_bob ∪ alice; 2%positive := alice]}, None)) as H.
  apply H.
  - split; [apply NoDup_singleton |]. apply Forall_singleton.
    apply (bool_decide_unpack _). vm_compute. reflexivity.
  - vm_compute. reflexivity.
  - vm_compute. reflexivity.
Defined.

(** *** The handlers *)

(** X13: [handleCreateTable] takes the type names ["int"] and
    ["string"] and no other: a declaration with another type name is
    refused with the first such name in the message, and nothing is
    created or written; with known type names and a free table name
    the table is created empty with the declared columns in order. *)
Theorem handleCreateTable_column_types p w :
  (∀ pre col post,
     protocol.CreateTable_Columns p = pre ++ col :: post →
     Forall known_type pre → ¬ known_type col →
     server.handleCreateTable (protocol.PCreateTable p) w
     = Some (server.fail ("invalid column type: " +:+ col.2), w)) ∧
  (Forall known_type (protocol.CreateTable_Columns p) →
   server.database w !! protocol.CreateTable_TableName p = None →
   ∃ w', server.handleCreateTable (protocol.PCreateTable p) w
         = Some (protocol.mkResponse true None "", w') ∧
         db.GetTable (protocol.CreateTable_TableName p) (server.database w')
         = inr (db.mkTable (protocol.CreateTable_TableName p)
                  (map declared (protocol.CreateTable_Columns p)) [])).
Proof.
  unfold server.handleCreateTable. split.
  - intros pre col post -> Hpre Hcol. by rewrite convertColumns_unknown.
  - intros Hknown Hfree. rewrite convertColumns_known by done.
    unfold db.CreateTable. rewrite Hfree. eexists. split; [done |].
    unfold db.GetTable. simpl. by rewrite lookup_insert_eq.
Qed.

Lemma handleCreateTable_column_types_witness :
  server.handleCreateTable
    (protocol.PCreateTable (protocol.mkCreateTablePayload "t" [("a", "int"); ("b", "INT")]))
    (world users)
  = Some (server.fail "invalid column type: INT", world users).
Proof.
  destruct (handleCreateTable_column_types
              (protocol.mkCreateTablePayload "t" [("a", "int"); ("b", "INT")])
              (world users)) as [H _].
  apply (H [("a", "int")] ("b", "INT") []).
  - reflexivity.
  - apply Forall_singleton. by left.
  - intros [H1 | H1]; discriminate H1.
Defined.

(** X14: a Save command on a catalog as the server holds it, with the
    default path creatable, succeeds; afterwards no backup file is
    left, the catalog is as before, and loading the default path gives
    the catalog back. *)
Theorem handleSaveToDisk_saves w :
  catalog_wire (server.database w) →
  server.DEFAULT_DB_FILE ∉ os.denied (server.disk w) →
  ∃ fs', server.handleSaveToDisk w
         = Some (protocol.mkResponse true None "", server.mkWorld (server.database w) fs') ∧
         os.Stat backupFile fs' = false ∧
         ∀ tables0,
           db.LoadFromDisk server.DEFAULT_DB_FILE fs' tables0
           = (server.database w, None).
Proof.
  intros Hwire Hfile. unfold server.handleSaveToDisk. cbv zeta. fold backupFile.
  set (fs1 := if os.Stat server.DEFAULT_DB_FILE (server.disk w)
              then default (server.disk w)
                     (os.Rename server.DEFAULT_DB_FILE backupFile (server.disk w))
              else server.disk w).
  assert (Hden : os.denied fs1 = os.denied (server.disk w)).
  { unfold fs1. destruct (os.Stat _ _); [| done].
    destruct (os.Rename _ _ _) eqn:E; [| done]. by eapply Rename_denied. }
  destruct (SaveToDisk_roundtrip server.DEFAULT_DB_FILE (server.database w) fs1 Hwire)
    as (j & _ & Hd & -> & _); [by rewrite Hden |].
  set (fs2 := os.write server.DEFAULT_DB_FILE (os.Json j) fs1).
  eexists. split; [done |].
  assert (Hfiles : os.files (default fs2 (os.Remove backupFile fs2))
                   = delete backupFile (os.files fs2)).
  { unfold os.Remove. destruct (os.files fs2 !! backupFile) eqn:E; simpl; [done |].
    symmetry. by apply delete_id. }
  split.
  - unfold os.Stat. rewrite Hfiles, lookup_delete_eq.
    apply bool_decide_eq_false_2. by intros [? ?].
  - intros tables0. apply (LoadFromDisk_of_Open _ _ j); [| done | done].
    unfold os.Open. rewrite Hfiles.
    rewrite lookup_delete_ne by apply backup_is_another_file.
    unfold fs2, os.write. simpl. by rewrite lookup_insert_eq.
Qed.

Lemma handleSaveToDisk_saves_witness :
  ∃ fs', server.handleSaveToDisk (server.mkWorld {["users" := users]} old_disk)
         = Some (protocol.mkResponse true None "",
                 server.mkWorld {["users" := users]} fs') ∧
         os.Stat backupFile fs' = false.
Proof.
  destruct (handleSaveToDisk_saves (server.mkWorld {["users" := users]} old_disk))
    as (fs' & H1 & H2 & _).
  - apply map_Forall_singleton. split; [done |]. split.
    + repeat constructor; done.
    + repeat constructor. apply (bool_decide_unpack _). vm_compute. reflexivity.
  - apply not_elem_of_empty.
  - exists fs'. split; [exact H1 | exact H2].
Defined.

(** X15: when a Save command fails because the catalog cannot be
    encoded, and the snapshot that was at the default path could be
    moved aside and back, that snapshot is at the default path again,
    no backup file is left, and the response carries the error. *)
Theorem handleSaveToDisk_restores_backup w f :
  db.Encode (to_data <$> server.database w) = None →
  os.files (server.disk w) !! server.DEFAULT_DB_FILE = Some f →
  server.DEFAULT_DB_FILE ∉ os.denied (server.disk w) →
  backupFile ∉ os.denied (server.disk w) →
  ∃ fs', server.handleSaveToDisk w
         = Some (server.fail (db.Error db.ErrEncode),
                 server.mkWorld (server.database w) fs') ∧
         os.files fs' !! server.DEFAULT_DB_FILE = Some f ∧
         os.files fs' !! backupFile = None.
Proof.
  intros Henc Hf Hd Hb. unfold server.handleSaveToDisk. cbv zeta. fold backupFile.
  pose proof backup_is_another_file as Hne.
  unfold os.Stat at 1. rewrite bool_decide_eq_true_2 by (by rewrite Hf).
  unfold os.Rename at 1. rewrite Hf, decide_False by done.
  cbn [default from_option id].
  unfold db.SaveToDisk, os.Create. cbn [os.denied].
  rewrite decide_False by done.
  change (db.Encode _) with (db.Encode (to_data <$> server.database w)).
  rewrite Henc.
  unfold os.Stat, os.Rename, os.write. cbn [os.files os.denied].
  rewrite lookup_insert_ne by done. rewrite lookup_insert_eq.
  rewrite bool_decide_eq_true_2 by done. rewrite decide_False by done.
  cbn [default from_option id]. eexists. split; [done |]. cbn [os.files]. split.
  - by rewrite lookup_insert_eq.
  - rewrite lookup_insert_ne by done. by rewrite lookup_delete_eq.
Qed.

Lemma handleSaveToDisk_restores_backup_witness :
  ∃ fs', server.handleSaveToDisk (server.mkWorld {["users" := nan_users]} old_disk)
         = Some (server.fail "json: unsupported value",
                 server.mkWorld {["users" := nan_users]} fs') ∧
         os.files fs' !! "database.json"
         = Some (os.Readable (os.Json (snapshot_of "old"))).
Proof.
  destruct (handleSaveToDisk_restores_backup
              (server.mkWorld {["users" := nan_users]} old_disk)
              (os.Readable (os.Json (snapshot_of "old")))) as (fs' & H1 & H2 & _).
  - vm_compute. reflexivity.
  - vm_compute. reflexivity.
  - apply not_elem_of_empty.
  - apply not_elem_of_empty.
  - exists fs'. split; [exact H1 | exact H2].
Defined.

(** X16: [SaveToDisk] creates the file before it encodes: when the
    catalog cannot be encoded it returns the error and the file is
    left without a document, so that a [LoadFromDisk] of it fails with
    a decode error (and keeps the catalog it is given). *)
Theorem SaveToDisk_truncates_first filename tables fs :
  db.Encode (to_data <$> tables) = None →
  filename ∉ os.denied fs →
  db.SaveToDisk filename tables fs
  = (os.write filename os.Garbage fs, Some db.ErrEncode) ∧
  ∀ tables0,
    db.LoadFromDisk filename (db.SaveToDisk filename tables fs).1 tables0
    = (tables0, Some db.ErrDecode).
Proof.
  intros Henc Hfile.
  assert (Hsave : db.SaveToDisk filename tables fs
                  = (os.write filename os.Garbage fs, Some db.ErrEncode)).
  { unfold db.SaveToDisk, os.Create. rewrite decide_False by done.
    change (db.Encode _) with (db.Encode (to_data <$> tables)). by rewrite Henc. }
  split; [done |]. intros tables0. rewrite Hsave. unfold db.LoadFromDisk.
  cbn [fst]. by rewrite Open_write.
Qed.

Lemma SaveToDisk_truncates_first_witness :
  db.LoadFromDisk "database.json"
    (db.SaveToDisk "database.json" {["users" := nan_users]} old_disk).1 ∅
  = (∅, Some db.ErrDecode).
Proof.
  destruct (SaveToDisk_truncates_first "database.json" {["users" := nan_users]} old_disk)
    as [_ H].
  - vm_compute. reflexivity.
  - apply not_elem_of_empty.
  - apply H.
Defined.

(** *** The dispatcher *)

(** X17: a request that is answered with [success: false] has changed
    nothing, neither the catalog nor the files, unless it is a Save. *)
Theorem failed_request_changes_nothing cmd w r :
  server.handleCommand cmd w = Some r →
  protocol.Success r.1 = false →
  protocol.Type_ cmd ≠ protocol.SaveToDisk →
  r.2 = w.
Proof.
  unfold server.handleCommand. cbv zeta. intros Hr Hfail Hsave.
  repeat (destruct (protocol.Type_ cmd =? _)%Z eqn:E;
          [apply Z.eqb_eq in E | clear E]);
    [.. | by injection Hr as <-].
  - unfold server.handleCreateTable in Hr.
    destruct (protocol.Payload cmd); try by injection Hr as <-.
    destruct (server.convertColumns _); [by injection Hr as <- |].
    destruct (db.CreateTable _ _ _) as [tables [err|]]; by injection Hr as <-.
  - unfold server.handleInsert in Hr.
    destruct (protocol.Payload cmd) as [| | | p | | | |]; try by injection Hr as <-.
    destruct (db.GetTable _ _) as [|t] eqn:Ht; [by injection Hr as <- |].
    pose proof (Insert_error (protocol.Insert_Values p) t) as Herr.
    destruct (db.Insert _ t) as [t' [err|]]; injection Hr as <-; [| done].
    simpl in *. rewrite (Herr err eq_refl).
    rewrite insert_id by (by apply GetTable_lookup). apply World_eta.
  - unfold server.handleSelect in Hr.
    destruct (protocol.Payload cmd); try by injection Hr as <-.
    destruct (db.GetTable _ _); [by injection Hr as <- |].
    by apply bind_Some in Hr as (? & _ & [= <-]).
  - unfold server.handleUpdate in Hr.
    destruct (protocol.Payload cmd) as [| | | | | p | |]; try by injection Hr as <-.
    destruct (db.GetTable _ _) as [|t] eqn:Ht; [by injection Hr as <- |].
    apply bind_Some in Hr as (u & Hu & Hr).
    destruct u.2 as [err|] eqn:Herr; injection Hr as <-; [| done]. simpl.
    rewrite (Update_error _ _ _ _ err Hu Herr).
    rewrite insert_id by (by apply GetTable_lookup). apply World_eta.
  - unfold server.handleDelete in Hr.
    destruct (protocol.Payload cmd) as [| | | | | | p |]; try by injection Hr as <-.
    destruct (db.GetTable _ _) as [|t] eqn:Ht; [by injection Hr as <- |].
    apply bind_Some in Hr as (u & Hu & Hr).
    destruct u.2.2 as [err|] eqn:Herr; injection Hr as <-; [| done]. simpl.
    rewrite (Delete_error _ _ _ err Hu Herr).
    rewrite insert_id by (by apply GetTable_lookup). apply World_eta.
  - done.
  - unfold server.handleLoadFromDisk in Hr.
    destruct (protocol.Payload cmd) as [| filename | | | | | |];
      try by injection Hr as <-.
    + pose proof (LoadFromDisk_error server.DEFAULT_DB_FILE (server.disk w)
                    (server.database w)) as Herr.
      destruct (db.LoadFromDisk _ _ _) as [tables [err|]]; injection Hr as <-; [| done].
      simpl in *. rewrite (Herr err eq_refl). apply World_eta.
    + pose proof (LoadFromDisk_error filename (server.disk w)
                    (server.database w)) as Herr.
      destruct (db.LoadFromDisk _ _ _) as [tables [err|]]; injection Hr as <-; [| done].
      simpl in *. rewrite (Herr err eq_refl). apply World_eta.
  - unfold server.handleGetTableInfo in Hr.
    destruct (protocol.Payload cmd); try by injection Hr as <-.
    destruct (db.GetTableInfo _ _); by injection Hr as <-.
Qed.

Lemma failed_request_changes_nothing_witness :
  (server.fail "missing value for column name", world users).2 = world users.
Proof.
  apply (failed_request_changes_nothing
           (protocol.mkCommand protocol.Insert
              (protocol.PInsert (protocol.mkInsertPayload "users" (by_id two))))
           (world users)).
  - vm_compute. reflexivity.
  - reflexivity.
  - discriminate.
Defined.

(** X18: a Select or GetTableInfo request changes nothing, whatever its
    outcome; a Save request never changes the catalog; a Load request
    never changes the files. *)
Theorem requests_that_only_read cmd w r :
  server.handleCommand cmd w = Some r →
  (protocol.Type_ cmd = protocol.Select ∨ protocol.Type_ cmd = protocol.GetTableInfo →
   r.2 = w) ∧
  (protocol.Type_ cmd = protocol.SaveToDisk →
   server.database r.2 = server.database w) ∧
  (protocol.Type_ cmd = protocol.LoadFromDisk → server.disk r.2 = server.disk w).
Proof.
  unfold server.handleCommand. cbv zeta. intros Hr.
  assert (Hselect : ∀ p, server.handleSelect p w = Some r → r.2 = w).
  { unfold server.handleSelect. intros p.
    destruct p; try by intros [= <-].
    destruct (db.GetTable _ _); [by intros [= <-] |].
    by intros (? & _ & [= <-])%bind_Some. }
  assert (Hinfo : ∀ p, server.handleGetTableInfo p w = Some r → r.2 = w).
  { unfold server.handleGetTableInfo. intros p.
    destruct p; try by intros [= <-].
    destruct (db.GetTableInfo _ _); by intros [= <-]. }
  assert (Hsave : server.handleSaveToDisk w = Some r →
                  server.database r.2 = server.database w).
  { unfold server.handleSaveToDisk. cbv zeta.
    destruct (db.SaveToDisk _ _ _) as [fs2 [err|]]; by intros [= <-]. }
  assert (Hload : ∀ p, server.handleLoadFromDisk p w = Some r →
                       server.disk r.2 = server.disk w).
  { unfold server.handleLoadFromDisk. intros p.
    destruct p; try (by intros [= <-]);
      destruct (db.LoadFromDisk _ _ _) as [tables [err|]]; by intros [= <-]. }
  split; [| split].
  - intros [Hty | Hty]; rewrite Hty in Hr; [by apply (Hselect _ Hr) | by apply (Hinfo _ Hr)].
  - intros Hty. rewrite Hty in Hr. by apply Hsave.
  - intros Hty. rewrite Hty in Hr. by apply (Hload _ Hr).
Qed.

Lemma requests_that_only_read_witness :
  (protocol.mkResponse true (Some (protocol.DRows [alice])) "", world users).2
  = world users.
Proof.
  destruct (requests_that_only_read
              (protocol.mkCommand protocol.Select
                 (protocol.PSelect (protocol.mkSelectPayload "users" ∅)))
              (world users)
              (protocol.mkResponse true (Some (protocol.DRows [alice])) "", world users))
    as [H _].
  - vm_compute. reflexivity.
  - apply H. by left.
Defined.

(** X19: after a CreateTable, Insert, Update or Delete request that
    is answered with [success: true], on a catalog and with values as
    the server holds them and the default path creatable, the snapshot
    at the default path loads back to exactly the catalog in memory. *)
Theorem successful_change_is_saved cmd w r :
  command_wire cmd →
  catalog_wire (server.database w) →
  server.DEFAULT_DB_FILE ∉ os.denied (server.disk w) →
  mutating (protocol.Type_ cmd) →
  server.handleCommand cmd w = Some r →
  protocol.Success r.1 = true →
  ∀ tables0,
    db.LoadFromDisk server.DEFAULT_DB_FILE (server.disk r.2) tables0
    = (server.database r.2, None).
Proof.
  intros Hcmd Hwire Hfile Hmut Hr Hok.
  pose proof (handleCommand_wire cmd w r Hcmd Hwire Hr) as Hwire'.
  assert (∃ w0, r.2 = server.autoSave w0 ∧ server.disk w0 = server.disk w)
    as (w0 & Hw0 & Hdisk).
  { revert Hr. unfold server.handleCommand. cbv zeta.
    destruct Hmut as [-> | [-> | [-> | ->]]].
    - change (server.handleCreateTable (protocol.Payload cmd) w = Some r → ?G)
        with (server.handleCreateTable (protocol.Payload cmd) w = Some r → G).
      unfold server.handleCreateTable.
      destruct (protocol.Payload cmd); try by intros [= <-].
      destruct (server.convertColumns _); [by intros [= <-] |].
      destruct (db.CreateTable _ _ _) as [tables [err|]]; intros [= <-]; [done |].
      by eexists.
    - change (server.handleInsert (protocol.Payload cmd) w = Some r → ?G)
        with (server.handleInsert (protocol.Payload cmd) w = Some r → G).
      unfold server.handleInsert.
      destruct (protocol.Payload cmd); try by intros [= <-].
      destruct (db.GetTable _ _); [by intros [= <-] |].
      destruct (db.Insert _ _) as [t' [err|]]; intros [= <-]; [done |].
      by eexists.
    - change (server.handleUpdate (protocol.Payload cmd) w = Some r → ?G)
        with (server.handleUpdate (protocol.Payload cmd) w = Some r → G).
      unfold server.handleUpdate.
      destruct (protocol.Payload cmd); try by intros [= <-].
      destruct (db.GetTable _ _); [by intros [= <-] |].
      intros (u & _ & Hu)%bind_Some.
      destruct u.2; injection Hu as <-; [done |]. by eexists.
    - change (server.handleDelete (protocol.Payload cmd) w = Some r → ?G)
        with (server.handleDelete (protocol.Payload cmd) w = Some r → G).
      unfold server.handleDelete.
      destruct (protocol.Payload cmd); try by intros [= <-].
      destruct (db.GetTable _ _); [by intros [= <-] |].
      intros (u & _ & Hu)%bind_Some.
      destruct u.2.2; injection Hu as <-; [done |]. by eexists. }
  intros tables0. rewrite Hw0 in *.
  change (server.database (server.autoSave w0)) with (server.database w0) in *.
  apply autoSave_loads; [done |]. by rewrite Hdisk.
Qed.

Lemma successful_change_is_saved_witness :
  ∃ r, server.handleCommand
         (protocol.mkCommand protocol.Insert
            (protocol.PInsert (protocol.mkInsertPayload "users" alice)))
         (world no_users) = Some r ∧
       db.LoadFromDisk "database.json" (server.disk r.2) ∅
       = (server.database r.2, None).
Proof.
  eexists. split; [vm_compute; reflexivity |].
  apply (successful_change_is_saved
           (protocol.mkCommand protocol.Insert
              (protocol.PInsert (protocol.mkInsertPayload "users" alice)))
           (world no_users)).
  - apply (bool_decide_unpack _). vm_compute. reflexivity.
  - apply map_Forall_singleton. split; [done |]. split; repeat constructor; done.
  - apply not_elem_of_empty.
  - right. by left.
  - vm_compute. reflexivity.
  - reflexivity.
Defined.

(** X20: [UnmarshalJSON] pairs a type with the payload struct of that
    type, and a type that has no struct with a nil payload, so that no
    handler of a decoded command finds a payload of another type; a
    request of a type with a struct and without a payload member does
    not decode. *)
Theorem UnmarshalJSON_payload_fits request :
  (∀ cmd, protocol.UnmarshalJSON request = Some cmd → payload_fits cmd) ∧
  (∀ ty, protocol.decodeRaw request = Some (ty, None) →
         ty ∈ [protocol.CreateTable; protocol.Insert; protocol.Select;
               protocol.Update; protocol.Delete; protocol.GetTableInfo] →
         protocol.UnmarshalJSON request = None).
Proof.
  unfold protocol.UnmarshalJSON, payload_fits. split.
  - intros cmd. destruct (protocol.decodeRaw request) as [[ty raw]|]; [| done].
    cbn [mbind option_bind fst snd].
    repeat (destruct (ty =? _)%Z eqn:E;
            [apply Z.eqb_eq in E; intros (p & _ & [= <-])%bind_Some; simpl; exact E
            | apply Z.eqb_neq in E; let H := fresh "Hne" in rename E into H]).
    intros [= <-]. simpl. rewrite !elem_of_cons, elem_of_nil. naive_solver.
  - intros ty ->. cbn [mbind option_bind fst snd]. rewrite !elem_of_cons, elem_of_nil.
    intros [-> | [-> | [-> | [-> | [-> | [-> | []]]]]]]; reflexivity.
Qed.

Lemma UnmarshalJSON_payload_fits_witness :
  payload_fits
    (protocol.mkCommand protocol.Insert
       (protocol.PInsert (protocol.mkInsertPayload "users" alice))).
Proof.
  destruct (UnmarshalJSON_payload_fits insert_alice) as [H _].
  apply H. vm_compute. reflexivity.
Defined.

(** X21: in every state the server reaches, from startup and through
    any requests, the catalog files every table under its own name and
    holds values that JSON can carry, and a save to any creatable path
    succeeds and loads back to the same catalog. *)
Theorem reached_catalog_can_be_saved w :
  reachable w →
  catalog_wire (server.database w) ∧
  ∀ filename fs, filename ∉ os.denied fs →
    (db.SaveToDisk filename (server.database w) fs).2 = None ∧
    ∀ tables0,
      db.LoadFromDisk filename (db.SaveToDisk filename (server.database w) fs).1 tables0
      = (server.database w, None).
Proof.
  intros Hwire%reachable_catalog_wire. split; [done |]. intros filename fs Hfile.
  destruct (SaveToDisk_roundtrip filename _ fs Hwire Hfile) as (j & _ & _ & -> & Hload).
  split; [done |]. apply Hload.
Qed.

Lemma reached_catalog_can_be_saved_witness :
  catalog_wire {["users" := users]}.
Proof.
  set (r1 := default (None, startup empty_disk)
               (server.serve create_users (startup empty_disk))).
  set (r2 := default (None, r1.2) (server.serve insert_alice r1.2)).
  assert (H1 : reachable r1.2).
  { apply (reachable_serve create_users (startup empty_disk));
      [apply reachable_startup | vm_compute; reflexivity]. }
  assert (H2 : reachable r2.2).
  { apply (reachable_serve insert_alice r1.2); [exact H1 | vm_compute; reflexivity]. }
  assert (E : server.database r2.2 = {["users" := users]}).
  { vm_compute. reflexivity. }
  destruct (reached_catalog_can_be_saved r2.2 H2) as [H _].
  rewrite <- E. exact H.
Defined.

(** X22: after a [LoadFromDisk] that succeeds, every table of the
    catalog is filed under the name the snapshot gives it, whatever key
    it had in the snapshot, so that [GetTable] returns under a name
    only a table of that name. *)
Theorem LoadFromDisk_files_by_name filename fs tables tables' :
  db.LoadFromDisk filename fs tables = (tables', None) →
  ∀ name t, db.GetTable name tables' = inr t → db.Table_Name t = name.
Proof.
  unfold db.LoadFromDisk. destruct (os.Open filename fs) as [[| j]|]; try done.
  destruct (db.Decode j) as [data|]; [| done]. intros [= <-] name t Ht.
  apply GetTable_lookup in Ht. by apply (LoadFromDisk_tables_keyed data name).
Qed.

Lemma LoadFromDisk_files_by_name_witness :
  db.GetTable "b" {["b" := db.mkTable "b" [] []]} = inr (db.mkTable "b" [] []) ∧
  db.Table_Name (db.mkTable "b" [] []) = "b".
Proof.
  split; [vm_compute; reflexivity |].
  apply (LoadFromDisk_files_by_name "database.json" misfiled_disk ∅
           {["b" := db.mkTable "b" [] []]}).
  - vm_compute. reflexivity.
  - vm_compute. reflexivity.
Defined.

(** X23: a Go [int] of at most 53 bits that a row holds is written to
    a snapshot as a number and read back as the [float64] of the same
    whole value: a column of type int still accepts it, but [==] no
    longer finds it equal to the [int]. *)
Theorem int_reads_back_as_float n col :
  (Z.abs n ≤ 2 ^ 53)%Z →
  db.Column_Type col = db.TypeInt →
  json.decodeValue <$> json.encodeValue (VInt n) = Some (VFloat (Finite n 0)) ∧
  db.validateValueType col (VInt n) = None ∧
  db.validateValueType col (VFloat (Finite n 0)) = None ∧
  iface_eq (VInt n) (VFloat (Finite n 0)) = Some false.
Proof.
  intros Hn Hty. split; [| split; [| split]].
  - simpl. by rewrite round_float_valid.
  - unfold db.validateValueType. by rewrite Hty.
  - unfold db.validateValueType. rewrite Hty.
    change (db.TypeInt =? db.TypeInt)%Z with true. cbv iota.
    rewrite check_complete; [done | done | done |].
    unfold fits_int, trunc. simpl. rewrite Z.mul_1_r.
    apply andb_true_iff. split; apply Z.leb_le; unfold minInt, maxInt; lia.
  - done.
Qed.

Lemma int_reads_back_as_float_witness :
  json.decodeValue <$> json.encodeValue (VInt 7) = Some (VFloat (Finite 7 0)).
Proof.
  destruct (int_reads_back_as_float 7 (db.mkColumn "id" db.TypeInt)) as [H _].
  - by vm_compute.
  - reflexivity.
  - exact H.
Defined.

(** X24: the load at startup never stops the server: it writes no
    file, a default snapshot that is missing, unreadable or malformed
    leaves the server with the empty catalog, and one that loads gives
    it the tables of the snapshot. *)
Theorem startup_load_outcomes fs :
  server.disk (startup fs) = fs ∧
  (∀ err, (db.LoadFromDisk server.DEFAULT_DB_FILE fs db.NewDatabase).2 = Some err →
          server.database (startup fs) = db.NewDatabase) ∧
  (∀ tables, db.LoadFromDisk server.DEFAULT_DB_FILE fs db.NewDatabase = (tables, None) →
             server.database (startup fs) = tables).
Proof.
  unfold startup. split; [by destruct (os.Stat _ fs) | split].
  - intros err Herr. destruct (os.Stat _ fs); [| done]. simpl.
    by eapply LoadFromDisk_error.
  - intros tables Hload. destruct (os.Stat _ fs) eqn:Hstat; simpl; [by rewrite Hload |].
    exfalso. unfold os.Stat in Hstat. apply bool_decide_eq_false in Hstat.
    unfold db.LoadFromDisk, os.Open in Hload.
    destruct (os.files fs !! server.DEFAULT_DB_FILE) as [f|]; [| done].
    apply Hstat. eauto.
Qed.

Lemma startup_load_outcomes_witness :
  server.database (startup bare_disk) = {["users" := bare_users]}.
Proof.
  destruct (startup_load_outcomes bare_disk) as (_ & _ & H).
  apply H. vm_compute. reflexivity.
Defined.

End further.
